(** * Batch processing service of the Clueso Node layer

    A shallow embedding of [Clueso_Node_layer/src/services/batch-service.js],
    of the request validator [Clueso_Node_layer/src/middlewares/validator.js]
    and of the [POST /batch/process] route ([batch-routes.js], as listed in
    [PRODUCTAI_DOCUMENTATION.md]), followed by the properties of the batch
    job processor.

    JavaScript values are a small universe [Value]; a batch object lives in
    a heap cell, the [batchJobs] Map holds references to cells, and an
    [async] function is cut at its [await]s: every synchronous block between
    two suspension points is one function of the model. The clock, the
    random part of a batch id and what the caller's processor does are
    inputs of the blocks. *)

From Stdlib Require Import ZArith Lia.

From stdpp Require Import gmap strings list pretty sorting.

Set Warnings "-register-all,-clear-no-such-hyp".

Local Open Scope Z_scope.

(** ** JavaScript values *)

Inductive Value :=
| VUndefined
| VNull
| VBool (b : bool)
| VNum (z : Z)
| VStr (s : string)
| VArr (l : list Value)
| VObj (props : list (string * Value)).

(** [v == null] of JavaScript: [null] or [undefined]. *)
Definition nullish (v : Value) : bool :=
  match v with VUndefined | VNull => true | _ => false end.

(** Truthiness, as [if (v)] and [v || w] test it. *)
Definition truthy (v : Value) : bool :=
  match v with
  | VUndefined | VNull => false
  | VBool b => b
  | VNum z => negb (z =? 0)
  | VStr s => negb (String.eqb s "")
  | VArr _ | VObj _ => true
  end.

(** [typeof v === 'string'] and [typeof v === 'object'] ([null] and arrays
    are objects). *)
Definition isString (v : Value) : bool :=
  match v with VStr _ => true | _ => false end.

Definition typeofObject (v : Value) : bool :=
  match v with VNull | VArr _ | VObj _ => true | _ => false end.

Fixpoint assoc (name : string) (props : list (string * Value)) : Value :=
  match props with
  | [] => VUndefined
  | (k, v) :: rest => if String.eqb k name then v else assoc name rest
  end.

(** [v.name] for a data property: [None] is the TypeError that reading a
    property of [null] or [undefined] throws; a missing property reads as
    [undefined]. *)
Definition getProp (v : Value) (name : string) : option Value :=
  match v with
  | VUndefined | VNull => None
  | VObj props => Some (assoc name props)
  | _ => Some VUndefined
  end.

(** [v?.name] *)
Definition getPropOpt (v : Value) (name : string) : Value :=
  match getProp v name with Some x => x | None => VUndefined end.

(** [a || b] *)
Definition orElse (a b : Value) : Value := if truthy a then a else b.

(** ** The batch data model *)

Inductive BatchState :=
| PENDING | PROCESSING | COMPLETED | FAILED | CANCELLED | PARTIAL.

#[global] Instance BatchState_eq_dec : EqDecision BatchState.
Proof. solve_decision. Defined.

(** [new Date().toISOString()]: the clock reading, passed in by the caller
    of each synchronous block. *)
Definition Time := N.

Record Item := mkItem {
  i_index : nat;
  i_id : Value;
  i_data : Value;
  i_state : BatchState;
  i_result : Value;
  i_error : Value;
  i_attempts : nat;
  i_startedAt : option Time;
  i_completedAt : option Time
}.

Record Progress := mkProgress {
  total : Z;
  completed : Z;
  failed : Z;
  pending : Z;
  processing : Z;
  percentComplete : Z
}.

Record ResultEntry := mkResultEntry {
  r_index : nat; r_id : Value; r_result : Value
}.

Record ErrorEntry := mkErrorEntry {
  e_index : nat; e_id : Value; e_error : Value; e_attempts : nat
}.

Record Batch := mkBatch {
  b_id : string;
  b_state : BatchState;
  b_operation : string;
  b_createdAt : Time;
  b_updatedAt : Time;
  b_startedAt : option Time;
  b_completedAt : option Time;
  b_items : list Item;
  b_progress : Progress;
  b_options : Value;
  b_results : list ResultEntry;
  b_errors : list ErrorEntry
}.

(** Events published on [batchEvents]. No module of the repository
    subscribes, so [emit] is an append to the log of the world. *)
Inductive Event :=
| EvStarted (batchId : string) (n : nat)
| EvItemStarted (batchId : string) (itemIndex : nat) (itemId : Value)
| EvItemCompleted (batchId : string) (itemIndex : nat) (itemId : Value) (result : Value)
| EvItemFailed (batchId : string) (itemIndex : nat) (itemId : Value) (error : Value)
| EvProgress (batchId : string) (p : Progress)
| EvCompleted (batchId : string) (st : BatchState) (p : Progress)
| EvCancelled (batchId : string).

(** Field updates of the mutable objects. *)
Definition item_with_state (s : BatchState) (it : Item) : Item :=
  mkItem (i_index it) (i_id it) (i_data it) s (i_result it) (i_error it)
         (i_attempts it) (i_startedAt it) (i_completedAt it).

Definition item_with_result (v : Value) (it : Item) : Item :=
  mkItem (i_index it) (i_id it) (i_data it) (i_state it) v (i_error it)
         (i_attempts it) (i_startedAt it) (i_completedAt it).

Definition item_with_error (v : Value) (it : Item) : Item :=
  mkItem (i_index it) (i_id it) (i_data it) (i_state it) (i_result it) v
         (i_attempts it) (i_startedAt it) (i_completedAt it).

Definition item_with_attempts (n : nat) (it : Item) : Item :=
  mkItem (i_index it) (i_id it) (i_data it) (i_state it) (i_result it) (i_error it)
         n (i_startedAt it) (i_completedAt it).

Definition item_with_startedAt (t : option Time) (it : Item) : Item :=
  mkItem (i_index it) (i_id it) (i_data it) (i_state it) (i_result it) (i_error it)
         (i_attempts it) t (i_completedAt it).

Definition item_with_completedAt (t : option Time) (it : Item) : Item :=
  mkItem (i_index it) (i_id it) (i_data it) (i_state it) (i_result it) (i_error it)
         (i_attempts it) (i_startedAt it) t.

Definition batch_with_state (s : BatchState) (b : Batch) : Batch :=
  mkBatch (b_id b) s (b_operation b) (b_createdAt b) (b_updatedAt b) (b_startedAt b)
          (b_completedAt b) (b_items b) (b_progress b) (b_options b) (b_results b) (b_errors b).

Definition batch_with_updatedAt (t : Time) (b : Batch) : Batch :=
  mkBatch (b_id b) (b_state b) (b_operation b) (b_createdAt b) t (b_startedAt b)
          (b_completedAt b) (b_items b) (b_progress b) (b_options b) (b_results b) (b_errors b).

Definition batch_with_startedAt (t : option Time) (b : Batch) : Batch :=
  mkBatch (b_id b) (b_state b) (b_operation b) (b_createdAt b) (b_updatedAt b) t
          (b_completedAt b) (b_items b) (b_progress b) (b_options b) (b_results b) (b_errors b).

Definition batch_with_completedAt (t : option Time) (b : Batch) : Batch :=
  mkBatch (b_id b) (b_state b) (b_operation b) (b_createdAt b) (b_updatedAt b) (b_startedAt b)
          t (b_items b) (b_progress b) (b_options b) (b_results b) (b_errors b).

Definition batch_with_items (l : list Item) (b : Batch) : Batch :=
  mkBatch (b_id b) (b_state b) (b_operation b) (b_createdAt b) (b_updatedAt b) (b_startedAt b)
          (b_completedAt b) l (b_progress b) (b_options b) (b_results b) (b_errors b).

Definition batch_with_progress (p : Progress) (b : Batch) : Batch :=
  mkBatch (b_id b) (b_state b) (b_operation b) (b_createdAt b) (b_updatedAt b) (b_startedAt b)
          (b_completedAt b) (b_items b) p (b_options b) (b_results b) (b_errors b).

Definition batch_with_results (l : list ResultEntry) (b : Batch) : Batch :=
  mkBatch (b_id b) (b_state b) (b_operation b) (b_createdAt b) (b_updatedAt b) (b_startedAt b)
          (b_completedAt b) (b_items b) (b_progress b) (b_options b) l (b_errors b).

Definition batch_with_errors (l : list ErrorEntry) (b : Batch) : Batch :=
  mkBatch (b_id b) (b_state b) (b_operation b) (b_createdAt b) (b_updatedAt b) (b_startedAt b)
          (b_completedAt b) (b_items b) (b_progress b) (b_options b) (b_results b) l.

(** [item.f = ...] for the item at position [k] of [batch.items]. *)
Definition update_item (k : nat) (f : Item → Item) (b : Batch) : Batch :=
  batch_with_items (alter f k (b_items b)) b.

(** ** Backoff *)

(** [Math.pow(2, item.attempts) * 1000], the delay in milliseconds before
    the next attempt (line 185). Powers of two times 1000 are exact in
    double precision far beyond any attempt count the service reaches. *)
Definition backoffDelay (attempts : nat) : Z := 2 ^ Z.of_nat attempts * 1000.


(** ** Synchronous blocks of the item executor

    [processItem] (lines 137-212) suspends at [await processor(...)] and at
    [await sleep(delay)]. A suspended call of [processBatch] is a [Task]:
    where it waits, for which item, the local [lastError] and the delay
    the timer was armed with. *)

Inductive Task :=
| Idle                                     (* no call has passed the guards of processBatch *)
| AwaitProcessor (k : nat)                 (* line 156 *)
| AwaitSleep (k : nat) (lastError : Value) (delay : Z) (* line 186 *)
| AwaitItem (k : nat)                      (* line 125, processItem has returned *)
| Returned                                 (* line 131 *)
| Rejected.                                (* an exception left processItem and processBatch *)

(** What the awaited [processor(item.id, item.data)] settles to. *)
Inductive Outcome :=
| Resolved (result : Value)
| Thrown (error : Value).

(** The default of the parameter [maxRetries] of [processItem] (line 137). *)
Definition defaultMaxRetries : nat := 3.

(** [updateProgress] (lines 217-227). The quotient is rounded in exact
    arithmetic, [Math.round(x) = floor(x + 1/2)]; the function is only
    called after an item has settled, when [total] is not 0. *)
Definition updateProgress (now : Time) (b : Batch) : Batch * list Event :=
  let p := b_progress b in
  let p' := mkProgress (total p) (completed p) (failed p) (pending p) (processing p)
              ((200 * (completed p + failed p) + total p) / (2 * total p)) in
  let b' := batch_with_updatedAt now (batch_with_progress p' b) in
  (b', [EvProgress (b_id b') p']).

(** Lines 138-150: the item enters [PROCESSING]. *)
Definition processItem_begin (now : Time) (k : nat) (b : Batch) : Batch * list Event :=
  match b_items b !! k with
  | None => (b, [])
  | Some item =>
    let b1 := update_item k (λ it, item_with_startedAt (Some now)
                                     (item_with_state PROCESSING it)) b in
    let p := b_progress b1 in
    let b2 := batch_with_progress
                (mkProgress (total p) (completed p) (failed p) (pending p - 1)
                            (processing p + 1) (percentComplete p)) b1 in
    (batch_with_updatedAt now b2, [EvItemStarted (b_id b) (i_index item) (i_id item)])
  end.

(** Lines 158-178: the processor resolved with [result]. *)
Definition processItem_success (now : Time) (k : nat) (result : Value) (b : Batch)
  : Batch * list Event :=
  match b_items b !! k with
  | None => (b, [])
  | Some item =>
    let b1 := update_item k (λ it, item_with_completedAt (Some now)
                                     (item_with_result result
                                       (item_with_state COMPLETED it))) b in
    let p := b_progress b1 in
    let b2 := batch_with_progress
                (mkProgress (total p) (completed p + 1) (failed p) (pending p)
                            (processing p - 1) (percentComplete p)) b1 in
    let b3 := batch_with_results
                (b_results b2 ++ [mkResultEntry (i_index item) (i_id item) result]) b2 in
    let '(b4, evs) := updateProgress now b3 in
    (b4, EvItemCompleted (b_id b) (i_index item) (i_id item) result :: evs)
  end.

(** Lines 191-211: all retries failed. *)
Definition processItem_fail (now : Time) (k : nat) (lastError : Value) (b : Batch)
  : Batch * list Event :=
  match b_items b !! k with
  | None => (b, [])
  | Some item =>
    let err := orElse (getPropOpt lastError "message") (VStr "Unknown error") in
    let b1 := update_item k (λ it, item_with_completedAt (Some now)
                                     (item_with_error err
                                       (item_with_state FAILED it))) b in
    let p := b_progress b1 in
    let b2 := batch_with_progress
                (mkProgress (total p) (completed p) (failed p + 1) (pending p)
                            (processing p - 1) (percentComplete p)) b1 in
    let b3 := batch_with_errors
                (b_errors b2 ++ [mkErrorEntry (i_index item) (i_id item) err (i_attempts item)])
                b2 in
    let '(b4, evs) := updateProgress now b3 in
    (b4, EvItemFailed (b_id b) (i_index item) (i_id item) err :: evs)
  end.

(** The head of the [while] loop (lines 152-156): either one more attempt
    is started and the call suspends on the processor, or the loop is left
    and the item fails. *)
Definition processItem_loop (maxRetries : nat) (now : Time) (k : nat) (lastError : Value)
    (b : Batch) : Batch * Task * list Event :=
  match b_items b !! k with
  | None => (b, AwaitItem k, [])
  | Some item =>
    if (i_attempts item <? maxRetries)%nat
    then (update_item k (λ it, item_with_attempts (S (i_attempts it)) it) b,
          AwaitProcessor k, [])
    else let '(b', evs) := processItem_fail now k lastError b in (b', AwaitItem k, evs)
  end.

(** The processor settled (lines 156-188). The template literal of the
    warning reads [error.message], which throws a TypeError when the
    processor rejected with [null] or [undefined]; that exception leaves
    [processItem]. *)
Definition processItem_settled (maxRetries : nat) (now : Time) (k : nat) (o : Outcome)
    (b : Batch) : Batch * Task * list Event :=
  match o with
  | Resolved result =>
    let '(b', evs) := processItem_success now k result b in (b', AwaitItem k, evs)
  | Thrown error =>
    match getProp error "message" with
    | None => (b, Rejected, [])
    | Some _ =>
      match b_items b !! k with
      | None => (b, AwaitItem k, [])
      | Some item =>
        if (i_attempts item <? maxRetries)%nat
        then (b, AwaitSleep k error (backoffDelay (i_attempts item)), [])
        else processItem_loop maxRetries now k error b
      end
    end
  end.

(** [processItem(batch, item, processor)] up to its first suspension. *)
Definition processItem (maxRetries : nat) (now : Time) (k : nat) (b : Batch)
  : Batch * Task * list Event :=
  let '(b1, evs1) := processItem_begin now k b in
  let '(b2, t, evs2) := processItem_loop maxRetries now k VNull b1 in
  (b2, t, evs1 ++ evs2).

(** ** The scheduler *)

(** [finalizeBatch] (lines 232-253). *)
Definition finalizeBatch (now : Time) (b : Batch) : Batch * list Event :=
  let b1 := batch_with_updatedAt now (batch_with_completedAt (Some now) b) in
  let b2 :=
    if decide (b_state b1 = CANCELLED) then b1
    else if failed (b_progress b1) =? 0 then batch_with_state COMPLETED b1
    else if completed (b_progress b1) =? 0 then batch_with_state FAILED b1
    else batch_with_state PARTIAL b1 in
  (b2, [EvCompleted (b_id b2) (b_state b2) (b_progress b2)]).

(** One turn of the [for ... of batch.items] loop of [processBatch]
    (lines 118-131), entered at position [k]: the loop ends and the batch is
    finalized, or the next item is handed to [processItem], which is always
    called with its default [maxRetries = 3]. *)
Definition processBatch_loop (now : Time) (k : nat) (b : Batch) : Batch * Task * list Event :=
  match b_items b !! k with
  | None => let '(b', evs) := finalizeBatch now b in (b', Returned, evs)
  | Some _ =>
    if decide (b_state b = CANCELLED)
    then let '(b', evs) := finalizeBatch now b in (b', Returned, evs)
    else processItem defaultMaxRetries now k b
  end.

(** Lines 110-116, then the loop. *)
Definition processBatch_start (now : Time) (b : Batch) : Batch * Task * list Event :=
  let b1 := batch_with_updatedAt now
              (batch_with_startedAt (Some now) (batch_with_state PROCESSING b)) in
  let '(b2, t, evs) := processBatch_loop now 0 b1 in
  (b2, t, EvStarted (b_id b) (length (b_items b)) :: evs).

(** A suspended call is resumed. *)
Definition resume_settle (now : Time) (o : Outcome) (t : Task) (b : Batch)
  : Batch * Task * list Event :=
  match t with
  | AwaitProcessor k => processItem_settled defaultMaxRetries now k o b
  | _ => (b, t, [])
  end.

Definition resume_wake (now : Time) (t : Task) (b : Batch) : Batch * Task * list Event :=
  match t with
  | AwaitSleep k lastError _ => processItem_loop defaultMaxRetries now k lastError b
  | _ => (b, t, [])
  end.

Definition resume_next (now : Time) (t : Task) (b : Batch) : Batch * Task * list Event :=
  match t with
  | AwaitItem k => processBatch_loop now (S k) b
  | _ => (b, t, [])
  end.

(** ** The job store and the running calls

    A batch is a mutable object shared between the [batchJobs] Map and the
    call of [processBatch] that works on it: the heap holds the objects,
    each with the state of the call that runs it, and the Map holds heap
    addresses. [deleteBatch] removes the entry of the Map, not the object. *)

(** A batch object and the call of [processBatch] that runs it. Only one
    call can pass the guard of [processBatch] for a given batch: the guard
    asks for [PENDING] and the call leaves that state at once, for good
    (lemma [cell_inv_pending_idle] below). *)
Record Cell := mkCell { obj : Batch; task : Task }.

Record World := mkWorld {
  heap : list Cell;
  batchJobs : gmap string nat;
  emitted : list Event
}.

Definition emptyWorld : World := mkWorld [] ∅ [].

(** [batchJobs.get(batchId)] *)
Definition lookupBatch (batchId : string) (w : World) : option (nat * Cell) :=
  a ← batchJobs w !! batchId; c ← heap w !! a; Some (a, c).

(** The object at address [a] is mutated and events are published. *)
Definition setCell (a : nat) (c : Cell) (evs : list Event) (w : World) : World :=
  mkWorld (<[a := c]> (heap w)) (batchJobs w) (emitted w ++ evs).

(** [generateBatchId] (lines 34-38): [now] is [Date.now()] and [rnd] the six
    characters drawn from [Math.random()]. *)
Definition generateBatchId (now : Time) (rnd : string) : string :=
  "batch_" +:+ pretty now +:+ "_" +:+ rnd.

(** The callback of [items.map] (lines 63-73); [None] is the TypeError of
    [item.id] on a [null] or [undefined] item. *)
Fixpoint newItems (index : nat) (items : list Value) : option (list Item) :=
  match items with
  | [] => Some []
  | item :: rest =>
    id ← (if isString item then Some item else getProp item "id");
    tl ← newItems (S index) rest;
    Some (mkItem index id (if typeofObject item then item else VNull)
                 PENDING VNull VNull 0 None None :: tl)
  end.

(** [createBatch] (lines 49-91), its argument destructured. The result is
    the created batch, or [None] when the call throws. *)
Definition createBatch (items : list Value) (operation : string) (processOptions : Value)
    (now : Time) (rnd : string) (w : World) : option Batch * World :=
  let batchId := generateBatchId now rnd in
  match newItems 0 items with
  | None => (None, w)
  | Some its =>
    let n := Z.of_nat (length items) in
    let batch := mkBatch batchId PENDING operation now now None None its
                         (mkProgress n 0 0 n 0 0) processOptions [] [] in
    (Some batch,
     mkWorld (heap w ++ [mkCell batch Idle])
             (<[batchId := length (heap w)]> (batchJobs w))
             (emitted w))
  end.

(** The two errors [processBatch] throws. *)
Inductive ServiceError :=
| BatchNotFound (batchId : string)
| BatchNotPending (batchId : string).

(** [processBatch] (lines 100-132) up to its first suspension; an error is
    the rejection of the returned promise. *)
Definition processBatch (batchId : string) (now : Time) (w : World)
  : option ServiceError * World :=
  match lookupBatch batchId w with
  | None => (Some (BatchNotFound batchId), w)
  | Some (a, c) =>
    if decide (b_state (obj c) = PENDING)
    then let '(b', t', evs) := processBatch_start now (obj c) in
         (None, setCell a (mkCell b' t') evs w)
    else (Some (BatchNotPending batchId), w)
  end.

(** [getBatch] (lines 261-263) *)
Definition getBatch (batchId : string) (w : World) : option Batch :=
  obj ∘ snd <$> lookupBatch batchId w.

(** [cancelBatch] (lines 291-306) *)
Definition cancelBatch (batchId : string) (now : Time) (w : World) : bool * World :=
  match lookupBatch batchId w with
  | None => (false, w)
  | Some (a, c) =>
    if decide (b_state (obj c) = COMPLETED ∨ b_state (obj c) = FAILED)
    then (false, w)
    else (true,
          setCell a (mkCell (batch_with_updatedAt now (batch_with_state CANCELLED (obj c)))
                            (task c))
                  [EvCancelled batchId] w)
  end.

(** [deleteBatch] (lines 342-354) *)
Definition deleteBatch (batchId : string) (w : World) : bool * World :=
  match lookupBatch batchId w with
  | None => (false, w)
  | Some (a, c) =>
    if decide (b_state (obj c) = PROCESSING)
    then (false, w)
    else (true, mkWorld (heap w) (delete batchId (batchJobs w)) (emitted w))
  end.

(** The suspended call that runs the object at address [a] continues. *)
Definition resume (f : Task → Batch → Batch * Task * list Event) (a : nat) (w : World)
  : World :=
  match heap w !! a with
  | None => w
  | Some c => let '(b', t', evs) := f (task c) (obj c) in setCell a (mkCell b' t') evs w
  end.

(** What can happen next in the process: a call of the service from
    outside, or the event loop resuming a suspended [processBatch]. *)
Inductive Action :=
| CallCreate (items : list Value) (operation : string) (processOptions : Value)
             (now : Time) (rnd : string)
| CallProcess (batchId : string) (now : Time)
| CallCancel (batchId : string) (now : Time)
| CallDelete (batchId : string)
| Settle (a : nat) (o : Outcome) (now : Time)
| Wake (a : nat) (now : Time)
| Next (a : nat) (now : Time).

(** An action that is not enabled (an unknown id, a call that is not
    suspended where the action resumes it) leaves the world as it is. *)
Definition step (w : World) (act : Action) : World :=
  match act with
  | CallCreate items operation processOptions now rnd =>
      (createBatch items operation processOptions now rnd w).2
  | CallProcess batchId now => (processBatch batchId now w).2
  | CallCancel batchId now => (cancelBatch batchId now w).2
  | CallDelete batchId => (deleteBatch batchId w).2
  | Settle a o now => resume (resume_settle now o) a w
  | Wake a now => resume (resume_wake now) a w
  | Next a now => resume (resume_next now) a w
  end.

Definition run (w : World) (acts : list Action) : World := foldl step w acts.

(** The worlds the service can be in. *)
Definition reachable (w : World) : Prop := ∃ acts, w = run emptyWorld acts.

(** ** Request validation ([middlewares/validator.js]) *)

(** [schema.required]: absent, a flag on a property, or the list of the
    required properties of an object. *)
Inductive Required :=
| ReqAbsent
| ReqFlag (b : bool)
| ReqProps (names : list string).

Record StringRules := mkStringRules {
  minLength : option nat;
  maxLength : option nat;
  pattern : option (string → bool);
  enum : option (list string);
  format : option string
}.

Record NumberRules := mkNumberRules {
  minimum : option Z;
  maximum : option Z;
  exclusiveMinimum : option Z;
  exclusiveMaximum : option Z
}.

(** A validation schema. [pattern] is the language of the regular
    expression and [custom] the [validate] callback, which returns a
    message or nothing. *)
Inductive Schema :=
| mkSchema (type : option (list string)) (required : Required)
           (strings : StringRules) (numbers : NumberRules)
           (minItems maxItems : option nat) (items : option Schema)
           (properties : option (list (string * Schema)))
           (additionalProperties : option bool)
           (custom : option (Value → option string)).

Definition noStrings : StringRules := mkStringRules None None None None None.

Definition noNumbers : NumberRules := mkNumberRules None None None None.

(** [typeValidators] (lines 29-37); a number of the model is an integer. *)
Definition typeValidator (type : string) (value : Value) : bool :=
  if String.eqb type "string" then isString value
  else if String.eqb type "number" then match value with VNum _ => true | _ => false end
  else if String.eqb type "integer" then match value with VNum _ => true | _ => false end
  else if String.eqb type "boolean" then match value with VBool _ => true | _ => false end
  else if String.eqb type "array" then match value with VArr _ => true | _ => false end
  else if String.eqb type "object" then match value with VObj _ => true | _ => false end
  else if String.eqb type "null" then match value with VNull => true | _ => false end
  else false.

(** [path || 'value'] *)
Definition pathOr (path : string) : string :=
  if String.eqb path "" then "value" else path.

(** [path ? `${path}.${name}` : name] *)
Definition propPath (path name : string) : string :=
  if String.eqb path "" then name else path +:+ "." +:+ name.

Definition requiredTruthy (r : Required) : bool :=
  match r with ReqAbsent => false | ReqFlag b => b | ReqProps _ => true end.

Definition isUndefined (v : Value) : bool :=
  match v with VUndefined => true | _ => false end.

Definition check (failed : bool) (message : string) : list string :=
  if failed then [message] else [].

Section Validator.

(** The table of format expressions of [validateFormat] (lines 160-167),
    each as the language it accepts. *)
Variable formats : string → option (string → bool).

(** [validateFormat] (lines 158-175) *)
Definition validateFormat (value format path : string) : list string :=
  match formats format with
  | Some test => check (negb (test value)) (pathOr path +:+ " must be a valid " +:+ format)
  | None => []
  end.

Definition stringErrors (r : StringRules) (value path : string) : list string :=
  match minLength r with
  | Some n => check (String.length value <? n)%nat
                (pathOr path +:+ " must be at least " +:+ pretty n +:+ " characters")
  | None => []
  end ++
  match maxLength r with
  | Some n => check (n <? String.length value)%nat
                (pathOr path +:+ " must be at most " +:+ pretty n +:+ " characters")
  | None => []
  end ++
  match pattern r with
  | Some test => check (negb (test value)) (pathOr path +:+ " does not match required pattern")
  | None => []
  end ++
  match enum r with
  | Some l => check (negb (bool_decide (value ∈ l)))
                (pathOr path +:+ " must be one of: " +:+ String.concat ", " l)
  | None => []
  end ++
  match format r with
  | Some f => validateFormat value f path
  | None => []
  end.

Definition numberErrors (r : NumberRules) (value : Z) (path : string) : list string :=
  match minimum r with
  | Some m => check (value <? m) (pathOr path +:+ " must be at least " +:+ pretty m)
  | None => []
  end ++
  match maximum r with
  | Some m => check (m <? value) (pathOr path +:+ " must be at most " +:+ pretty m)
  | None => []
  end ++
  match exclusiveMinimum r with
  | Some m => check (value <=? m) (pathOr path +:+ " must be greater than " +:+ pretty m)
  | None => []
  end ++
  match exclusiveMaximum r with
  | Some m => check (m <=? value) (pathOr path +:+ " must be less than " +:+ pretty m)
  | None => []
  end.

(** [validateValue] (lines 47-153) *)
Fixpoint validateValue (schema : Schema) (value : Value) (path : string) {struct schema}
  : list string :=
  match schema with
  | mkSchema type required strs nums minItems maxItems items properties
             additionalProperties custom =>
    if nullish value
    then check (requiredTruthy required) (pathOr path +:+ " is required")
    else
      let typeError :=
        match type with
        | Some types =>
            if existsb (λ t, typeValidator t value) types then None
            else Some [pathOr path +:+ " must be of type " +:+ String.concat " or " types]
        | None => None
        end in
      match typeError with
      | Some errors => errors
      | None =>
        match value with VStr s => stringErrors strs s path | _ => [] end ++
        match value with VNum z => numberErrors nums z path | _ => [] end ++
        match value with
        | VArr l =>
            match minItems with
            | Some n => check (length l <? n)%nat
                          (pathOr path +:+ " must have at least " +:+ pretty n +:+ " items")
            | None => []
            end ++
            match maxItems with
            | Some n => check (n <? length l)%nat
                          (pathOr path +:+ " must have at most " +:+ pretty n +:+ " items")
            | None => []
            end ++
            match items with
            | Some itemSchema =>
                concat (imap (λ index item,
                          validateValue itemSchema item
                            (path +:+ "[" +:+ pretty index +:+ "]")) l)
            | None => []
            end
        | _ => []
        end ++
        match value with
        | VObj fields =>
            match properties with
            | Some props =>
                (fix each (ps : list (string * Schema)) : list string :=
                   match ps with
                   | [] => []
                   | (propName, propSchema) :: rest =>
                       validateValue propSchema (assoc propName fields)
                                     (propPath path propName) ++ each rest
                   end) props
            | None => []
            end ++
            match required with
            | ReqProps names =>
                flat_map (λ requiredProp,
                  check (isUndefined (assoc requiredProp fields))
                        (propPath path requiredProp +:+ " is required")) names
            | _ => []
            end ++
            match additionalProperties, properties with
            | Some false, Some props =>
                let extraProps :=
                  filter (λ p, p ∉ props.*1) (fields.*1) in
                check (negb (bool_decide (extraProps = [])))
                      ((if String.eqb path "" then "" else path +:+ ": ")
                         +:+ "Unknown properties: " +:+ String.concat ", " extraProps)
            | _, _ => []
            end
        | _ => []
        end ++
        match custom with
        | Some validator =>
            match validator value with
            | Some customError => [pathOr path +:+ ": " +:+ customError]
            | None => []
            end
        | None => []
        end
      end
  end.

End Validator.

(** [formats] of [validateFormat]. Of its six expressions the model spells
    out none: no schema of the batch routes names a format. *)
Definition noFormats : string → option (string → bool) := λ _, None.

(** [{ type }] *)
Definition schemaOf (type : string) : Schema :=
  mkSchema (Some [type]) ReqAbsent noStrings noNumbers None None None None None None.

(** [sessions] of both schemas of the create request: an array of one to
    fifty strings. *)
Definition sessionsSchema : Schema :=
  mkSchema (Some ["array"]) (ReqFlag true) noStrings noNumbers
           (Some 1%nat) (Some 50%nat) (Some (schemaOf "string")) None None None.

(** [schemas.batchProcess.body] (validator.js, lines 331-346) *)
Definition batchProcess : Schema :=
  mkSchema (Some ["object"]) (ReqProps ["sessions"]) noStrings noNumbers None None None
           (Some [("sessions", sessionsSchema); ("options", schemaOf "object")])
           None None.

(** The schema [POST /batch/process] is declared with
    (routes batch-routes.js). *)
Definition processRouteBody : Schema :=
  mkSchema (Some ["object"]) (ReqProps ["sessions"]) noStrings noNumbers None None None
           (Some [("sessions", sessionsSchema);
                  ("options",
                   mkSchema (Some ["object"]) ReqAbsent noStrings noNumbers None None None
                     (Some [("retries",
                             mkSchema (Some ["integer"]) ReqAbsent noStrings
                                      (mkNumberRules (Some 1) (Some 5) None None)
                                      None None None None None None);
                            ("generateSummary", schemaOf "boolean");
                            ("generateAudio", schemaOf "boolean")])
                     None None)])
           None None.

(** What the route reads of a request: its parsed JSON body. *)
Record Request := mkRequest { req_body : Value }.

(** The middleware [validate({ body })] (lines 187-236), for a set of
    schemas that has neither [query] nor [params], as on the batch routes:
    the errors found, each with its location. The middleware answers 400
    when there is one and calls [next()] otherwise. *)
Definition validate (body : option Schema) (req : Request) : list (string * string) :=
  match body with
  | Some schema =>
      if truthy (req_body req)
      then (λ e, ("body", e)) <$> validateValue noFormats schema (req_body req) ""
      else []
  | None => []
  end.

(** The answers of [POST /batch/process]. *)
Inductive Response :=
| RateLimitExceeded                                   (* 429, from the rate limiter *)
| ValidationError (errors : list (string * string))   (* 400 VALIDATION_ERROR *)
| BatchStarted (batchId : string) (state : BatchState) (progress : Progress) (* 202 *)
| BatchCreateError.                                   (* 500 BATCH_CREATE_ERROR *)

(** [items.map] of [createBatch] applied to what the caller passed as
    [items]: the default [[]] for [undefined], and a TypeError for a value
    that is not an array. *)
Definition itemsArgument (items : Value) : option (list Value) :=
  match items with
  | VUndefined => Some []
  | VArr l => Some l
  | _ => None
  end.

(** [POST /batch/process]: the rate limiter ([limited] is its verdict), the
    validation middleware, then the handler, which creates the batch and
    answers 202; [processBatch] is called later, from [setImmediate]. *)
Definition postProcess (limited : bool) (req : Request) (now : Time) (rnd : string)
    (w : World) : Response * World :=
  if limited then (RateLimitExceeded, w)
  else
    match validate (Some processRouteBody) req with
    | (_ :: _) as errors => (ValidationError errors, w)
    | [] =>
      match getProp (req_body req) "sessions", getProp (req_body req) "options" with
      | Some sessions, Some options =>
        match itemsArgument sessions with
        | Some items =>
          match createBatch items "process"
                            (if isUndefined options then VObj [] else options) now rnd w with
          | (Some batch, w') =>
              (BatchStarted (b_id batch) (b_state batch) (b_progress batch), w')
          | (None, w') => (BatchCreateError, w')
          end
        | None => (BatchCreateError, w)
        end
      | _, _ => (BatchCreateError, w)
      end
    end.

(** ** Invariants of a batch object *)

(** The number of items in state [s]. *)
Fixpoint count_state (s : BatchState) (l : list Item) : Z :=
  match l with
  | [] => 0
  | it :: rest => (if decide (i_state it = s) then 1 else 0) + count_state s rest
  end.

(** The progress counters tally the items by state, and the two output
    lists have one entry per settled item. *)
Definition counts_ok (b : Batch) : Prop :=
  let p := b_progress b in
  total p = Z.of_nat (length (b_items b)) ∧
  pending p = count_state PENDING (b_items b) ∧
  processing p = count_state PROCESSING (b_items b) ∧
  completed p = count_state COMPLETED (b_items b) ∧
  failed p = count_state FAILED (b_items b) ∧
  Z.of_nat (length (b_results b)) = completed p ∧
  Z.of_nat (length (b_errors b)) = failed p.

(** The three kinds of item of a batch: not yet started, in flight, done. *)
Inductive Slot := SFresh | SRunning | SSettled.

(** An item as [createBatch] made it. *)
Definition fresh (it : Item) : Prop :=
  i_state it = PENDING ∧ i_result it = VNull ∧ i_error it = VNull ∧ i_attempts it = 0%nat.

Definition running (it : Item) : Prop :=
  i_state it = PROCESSING ∧ i_result it = VNull ∧ i_error it = VNull.

Definition settled (it : Item) : Prop :=
  (i_state it = COMPLETED ∧ i_error it = VNull) ∨
  (i_state it = FAILED ∧ i_result it = VNull ∧ nullish (i_error it) = false).

Definition item_inv (sl : Slot) (it : Item) : Prop :=
  (i_attempts it ≤ defaultMaxRetries)%nat ∧
  match sl with
  | SFresh => fresh it
  | SRunning => running it
  | SSettled => settled it
  end.

(** Items below [d] are done, item [d] is in flight when [r] is set, and
    every other item is untouched. *)
Definition slot_of (d : nat) (r : bool) (j : nat) : Slot :=
  if (j <? d)%nat then SSettled
  else if r && (j =? d)%nat then SRunning
  else SFresh.

Definition layout (d : nat) (r : bool) (l : list Item) : Prop :=
  ∀ j it, l !! j = Some it → item_inv (slot_of d r j) it.

(** The batch has been started and not yet finalized. *)
Definition in_progress (b : Batch) : Prop :=
  (b_state b = PROCESSING ∨ b_state b = CANCELLED) ∧ b_completedAt b = None.

(** The state [finalizeBatch] chose from the counters. *)
Definition final_state (b : Batch) : Prop :=
  (b_state b = COMPLETED ∧ failed (b_progress b) = 0) ∨
  (b_state b = FAILED ∧ failed (b_progress b) ≠ 0 ∧ completed (b_progress b) = 0) ∨
  (b_state b = PARTIAL ∧ failed (b_progress b) ≠ 0 ∧ completed (b_progress b) ≠ 0).

(** How the position of the suspended call, the layout of the items and
    the state of the batch fit together. *)
Definition task_ok (t : Task) (d : nat) (r : bool) (b : Batch) : Prop :=
  match t with
  | Idle =>
      d = 0%nat ∧ r = false ∧ (b_state b = PENDING ∨ b_state b = CANCELLED) ∧
      b_completedAt b = None
  | AwaitProcessor k | AwaitSleep k _ _ =>
      d = k ∧ r = true ∧ (k < length (b_items b))%nat ∧ in_progress b
  | AwaitItem k =>
      d = S k ∧ r = false ∧ (k < length (b_items b))%nat ∧ in_progress b
  | Rejected =>
      r = true ∧ (d < length (b_items b))%nat ∧ in_progress b
  | Returned =>
      r = false ∧ is_Some (b_completedAt b) ∧
      (b_state b = CANCELLED ∨ ((length (b_items b) ≤ d)%nat ∧ final_state b))
  end.

Definition cell_inv (c : Cell) : Prop :=
  counts_ok (obj c) ∧
  ∃ d r, layout d r (b_items (obj c)) ∧ task_ok (task c) d r (obj c).

(** One transition of a batch object and of the call that runs it. *)
Definition cellOf (x : Batch * Task * list Event) : Cell := mkCell x.1.1 x.1.2.

Inductive cell_step : Cell → Cell → Prop :=
| cs_start now c :
    b_state (obj c) = PENDING →
    cell_step c (cellOf (processBatch_start now (obj c)))
| cs_cancel now c :
    ¬ (b_state (obj c) = COMPLETED ∨ b_state (obj c) = FAILED) →
    cell_step c (mkCell (batch_with_updatedAt now (batch_with_state CANCELLED (obj c)))
                        (task c))
| cs_settle now o c : cell_step c (cellOf (resume_settle now o (task c) (obj c)))
| cs_wake now c : cell_step c (cellOf (resume_wake now (task c) (obj c)))
| cs_next now c : cell_step c (cellOf (resume_next now (task c) (obj c))).

(** What a block of [processItem] leaves alone. *)
Definition same_frame (b b' : Batch) : Prop :=
  b_state b' = b_state b ∧ b_completedAt b' = b_completedAt b ∧
  length (b_items b') = length (b_items b).

(** The outcome of a block of the executor: the item is still in flight,
    or it is done and [processItem] has returned. *)
Definition executor_post (k : nat) (b : Batch) (x : Batch * Task * list Event) : Prop :=
  let b' := x.1.1 in
  counts_ok b' ∧ same_frame b b' ∧
  (((x.1.2 = AwaitProcessor k ∨ (∃ e ms, x.1.2 = AwaitSleep k e ms) ∨ x.1.2 = Rejected)
    ∧ layout k true (b_items b')) ∨
   (x.1.2 = AwaitItem k ∧ layout (S k) false (b_items b'))).

(** Every batch object of the world satisfies the invariant, whether the
    Map still holds it or not. *)
Definition world_inv (w : World) : Prop := ∀ a c, heap w !! a = Some c → cell_inv c.

(** ** Invariants of a cancelled batch *)





(** ** The properties as the specification words them *)

(** The exclusivity of [result] and [error] the data model asks for: a
    completed item has a result and no error, a failed item an error and
    no result, any other item neither. *)
Definition result_error_exclusive (it : Item) : Prop :=
  match i_state it with
  | COMPLETED => nullish (i_result it) = false ∧ nullish (i_error it) = true
  | FAILED => nullish (i_result it) = true ∧ nullish (i_error it) = false
  | _ => nullish (i_result it) = true ∧ nullish (i_error it) = true
  end.

(** The terminal states of a job. *)
Definition terminal (s : BatchState) : Prop :=
  s = COMPLETED ∨ s = FAILED ∨ s = CANCELLED ∨ s = PARTIAL.




(** ** Scenarios *)

(** [new Error('boom')] *)
Definition boom : Value := VObj [("message", VStr "boom")].

(** Two items are submitted; the first succeeds at once, the second fails
    its three attempts. *)
Definition partialRun : list Action :=
  [ CallCreate [VStr "A"; VStr "B"] "process" (VObj []) 5%N "k3x9qa";
    CallProcess "batch_5_k3x9qa" 6%N;
    Settle 0 (Resolved (VStr "ok")) 7%N; Next 0 8%N;
    Settle 0 (Thrown boom) 9%N; Wake 0 2009%N;
    Settle 0 (Thrown boom) 2010%N; Wake 0 6010%N;
    Settle 0 (Thrown boom) 6011%N; Next 0 6012%N ].

(** One item, whose processor resolves with [null]. *)
Definition nullResultRun : list Action :=
  [ CallCreate [VStr "A"] "process" (VObj []) 5%N "k3x9qa";
    CallProcess "batch_5_k3x9qa" 6%N;
    Settle 0 (Resolved VNull) 7%N; Next 0 8%N ].


(** A batch is cancelled before [processBatch] is called on it. *)
Definition cancelledBeforeStart : list Action :=
  [ CallCreate [VStr "A"; VStr "B"] "process" (VObj []) 5%N "k3x9qa";
    CallCancel "batch_5_k3x9qa" 6%N ].

(** Three items; the first is done and the second is in flight. *)
Definition secondInFlight : list Action :=
  [ CallCreate [VStr "A"; VStr "B"; VStr "C"] "process" (VObj []) 5%N "k3x9qa";
    CallProcess "batch_5_k3x9qa" 6%N;
    Settle 0 (Resolved (VStr "ok")) 7%N; Next 0 8%N ].

(** A batch is created and nothing else happens. *)
Definition justCreated : list Action :=
  [ CallCreate [VStr "A"; VStr "B"] "process" (VObj []) 5%N "k3x9qa" ].

(** ** More of the batch service: reports and listings *)

(** [calculateDuration] (lines 386-398). The two timestamps are already
    read as milliseconds, [now] is [Date.now()], and [Math.floor] of a
    quotient is the floor division of [Z]. *)
Definition calculateDuration (startIso : Time) (endIso : option Time) (now : Time) : string :=
  let start := Z.of_N startIso in
  let end_ := Z.of_N (default now endIso) in
  let ms := end_ - start in
  let seconds := ms / 1000 in
  let minutes := seconds / 60 in
  let hours := minutes / 60 in
  if 0 <? hours then pretty hours +:+ "h " +:+ pretty (Z.rem minutes 60) +:+ "m"
  else if 0 <? minutes then pretty minutes +:+ "m " +:+ pretty (Z.rem seconds 60) +:+ "s"
  else pretty seconds +:+ "s".

(** What [getBatchProgress] returns. *)
Record ProgressReport := mkProgressReport {
  pr_batchId : string;
  pr_state : BatchState;
  pr_progress : Progress;
  pr_startedAt : option Time;
  pr_completedAt : option Time;
  pr_duration : option string
}.

(** [getBatchProgress] (lines 271-283) *)
Definition getBatchProgress (batchId : string) (now : Time) (w : World)
  : option ProgressReport :=
  batch ← getBatch batchId w;
  Some (mkProgressReport (b_id batch) (b_state batch) (b_progress batch)
          (b_startedAt batch) (b_completedAt batch)
          (start ← b_startedAt batch;
           Some (calculateDuration start (b_completedAt batch) now))).

(** The strings of [BatchState] (lines 16-23). *)
Definition stateName (s : BatchState) : string :=
  match s with
  | PENDING => "pending"
  | PROCESSING => "processing"
  | COMPLETED => "completed"
  | FAILED => "failed"
  | CANCELLED => "cancelled"
  | PARTIAL => "partial"
  end.

(** An entry of the list [listBatches] returns. *)
Record BatchSummary := mkBatchSummary {
  s_id : string;
  s_state : BatchState;
  s_operation : string;
  s_progress : Progress;
  s_createdAt : Time;
  s_completedAt : option Time
}.

Definition summary (b : Batch) : BatchSummary :=
  mkBatchSummary (b_id b) (b_state b) (b_operation b) (b_progress b)
                 (b_createdAt b) (b_completedAt b).

(** [batches.sort((a, b) => new Date(b.createdAt) - new Date(a.createdAt))]:
    the sort of an array is stable, so it is the insertion sort that puts
    an element before the first one that is not newer. *)
Fixpoint insertNewest (b : Batch) (l : list Batch) : list Batch :=
  match l with
  | [] => [b]
  | x :: rest =>
      if (b_createdAt x <=? b_createdAt b)%N then b :: l else x :: insertNewest b rest
  end.

Fixpoint sortNewestFirst (l : list Batch) : list Batch :=
  match l with
  | [] => []
  | b :: rest => insertNewest b (sortNewestFirst rest)
  end.

(** [if (state) batches = batches.filter(b => b.state === state)]
    (lines 319-321); the empty string is falsy. *)
Definition filterByState (state : option string) (values : list Batch) : list Batch :=
  match state with
  | Some s =>
      if String.eqb s "" then values
      else filter (λ b, stateName (b_state b) = s) values
  | None => values
  end.

(** [listBatches] (lines 314-334). [values] is
    [Array.from(batchJobs.values())], the batches in the order they were
    stored; [limit] is a count (the route takes it between 1 and 100) and
    [state] the filter, absent or a string. *)
Definition listBatches (values : list Batch) (limit : nat) (state : option string)
  : list BatchSummary :=
  summary <$> take limit (sortNewestFirst (filterByState state values)).

(** [x] was created no earlier than [y]. *)
Definition notOlder (x y : Batch) : Prop := (b_createdAt y ≤ b_createdAt x)%N.

(** ** More of the batch routes *)

(** The answers of [DELETE /batch/:batchId] and of
    [POST /batch/:batchId/cancel]. *)
Inductive ManageResponse :=
| NotFound            (* 404 NOT_FOUND *)
| CancelledOk         (* 200, 'Batch cancelled successfully' *)
| DeletedOk           (* 200, 'Batch deleted successfully' *)
| CannotDelete        (* 400 CANNOT_DELETE *)
| CannotCancel.       (* 400 CANNOT_CANCEL *)

(** The handler of [DELETE /batch/:batchId]. *)
Definition deleteRoute (batchId : string) (now : Time) (w : World)
  : ManageResponse * World :=
  match getBatch batchId w with
  | None => (NotFound, w)
  | Some batch =>
    let tryDelete (w0 : World) :=
      let '(deleted, w1) := deleteBatch batchId w0 in
      if deleted then (DeletedOk, w1) else (CannotDelete, w1) in
    if decide (b_state batch = PROCESSING ∨ b_state batch = PENDING)
    then let '(cancelled, w1) := cancelBatch batchId now w in
         if cancelled then (CancelledOk, w1) else tryDelete w1
    else tryDelete w
  end.

(** The handler of [POST /batch/:batchId/cancel]. *)
Definition cancelRoute (batchId : string) (now : Time) (w : World)
  : ManageResponse * World :=
  let '(cancelled, w1) := cancelBatch batchId now w in
  if cancelled then (CancelledOk, w1) else (CannotCancel, w1).

(** ** Further invariants of a batch object *)

(** The entries [processItem] pushes for a settled item. *)
Definition resultEntry (it : Item) : option ResultEntry :=
  if decide (i_state it = COMPLETED)
  then Some (mkResultEntry (i_index it) (i_id it) (i_result it)) else None.

Definition errorEntry (it : Item) : option ErrorEntry :=
  if decide (i_state it = FAILED)
  then Some (mkErrorEntry (i_index it) (i_id it) (i_error it) (i_attempts it)) else None.

(** The attempts an item has made, by its state. *)
Definition attempts_ok (it : Item) : Prop :=
  match i_state it with
  | PENDING => i_attempts it = 0%nat
  | COMPLETED => (1 ≤ i_attempts it ≤ defaultMaxRetries)%nat
  | FAILED => i_attempts it = defaultMaxRetries
  | _ => True
  end.

(** [percentComplete] is the rounded share of settled items. *)
Definition percent_ok (b : Batch) : Prop :=
  let p := b_progress b in
  percentComplete p = (200 * (completed p + failed p) + total p) / (2 * total p).

Definition outputs_inv (b : Batch) : Prop :=
  b_results b = omap resultEntry (b_items b) ∧
  b_errors b = omap errorEntry (b_items b) ∧
  (∀ j it, b_items b !! j = Some it → i_index it = j ∧ attempts_ok it) ∧
  percent_ok b.

(** The invariant of a cell: the outputs of its batch, at least one attempt
    made while the processor is awaited, and [startedAt] set exactly when a
    call of [processBatch] took the batch. *)
Definition extra_inv (c : Cell) : Prop :=
  outputs_inv (obj c) ∧
  (∀ k it, task c = AwaitProcessor k → b_items (obj c) !! k = Some it →
           (1 ≤ i_attempts it)%nat) ∧
  (b_startedAt (obj c) = None ↔ task c = Idle).

(** A cell as [createBatch] allocates it. *)
Definition created (c : Cell) : Prop :=
  ∃ items its batchId operation now processOptions,
    newItems 0 items = Some its ∧
    c = mkCell (mkBatch batchId PENDING operation now now None None its
                        (mkProgress (Z.of_nat (length items)) 0 0
                                    (Z.of_nat (length items)) 0 0)
                        processOptions [] []) Idle.

(** What a block of the executor leaves of the outputs, and the attempt
    that is under way when it suspends on the processor. *)
Definition outputs_post (k : nat) (x : Batch * Task * list Event) : Prop :=
  outputs_inv x.1.1 ∧
  (∀ k' it, x.1.2 = AwaitProcessor k' → b_items x.1.1 !! k' = Some it →
            (1 ≤ i_attempts it)%nat) ∧
  x.1.2 ≠ Idle.

(** The transitions of the state of a job. *)
Inductive state_edge : BatchState → BatchState → Prop :=
| edge_start : state_edge PENDING PROCESSING
| edge_start_empty : state_edge PENDING COMPLETED
| edge_completed : state_edge PROCESSING COMPLETED
| edge_failed : state_edge PROCESSING FAILED
| edge_partial : state_edge PROCESSING PARTIAL
| edge_cancel_pending : state_edge PENDING CANCELLED
| edge_cancel_processing : state_edge PROCESSING CANCELLED
| edge_cancel_partial : state_edge PARTIAL CANCELLED.

(** One item, whose three attempts fail. *)
Definition failedRun : list Action :=
  [ CallCreate [VStr "A"] "process" (VObj []) 5%N "k3x9qa";
    CallProcess "batch_5_k3x9qa" 6%N;
    Settle 0 (Thrown boom) 9%N; Wake 0 2009%N;
    Settle 0 (Thrown boom) 2010%N; Wake 0 6010%N;
    Settle 0 (Thrown boom) 6011%N ].

(** ** Rate limiting ([middlewares/rate-limiter.js]) *)

(** An entry of [rateLimitStore]; times are milliseconds as [Date.now()]
    gives them. *)
Record RateData := mkRateData {
  rd_count : Z;
  rd_resetTime : Z;
  rd_firstRequest : Z
}.

(** The configuration of a limiter, [{ ...defaults, ...options }], without
    its three callbacks: the verdict of [skip] and the key that
    [keyGenerator] computes are inputs of the middleware, and
    [onLimitReached] is [null] in [defaults] and in every preset. *)
Record RateConfig := mkRateConfig {
  rc_windowMs : Z;
  rc_max : Z;
  rc_message : string;
  rc_statusCode : Z;
  rc_headers : bool
}.

(** [defaults] (lines 57-66) *)
Definition defaults : RateConfig :=
  mkRateConfig 60000 100 "Too many requests, please try again later." 429 true.

(** [Math.ceil(a / b)] for a positive [b]. *)
Definition ceilDiv (a b : Z) : Z := - ((- a) / b).

(** What the middleware did with a request: whether [next()] was called,
    the headers it set, and the body of the answer it sent, if any:
    status, message and [retryAfter]. *)
Record RateVerdict := mkRateVerdict {
  rv_next : bool;
  rv_headers : list (string * Value);
  rv_response : option (Z * string * Z)
}.

(** The middleware [rateLimiter(options)] (lines 82-152). *)
Definition rateLimiter (config : RateConfig) (skip : bool) (key : string) (now : Z)
    (store : gmap string RateData) : RateVerdict * gmap string RateData :=
  if skip then (mkRateVerdict true [] None, store)
  else
    let window := mkRateData 0 (now + rc_windowMs config) now in
    let data :=
      match store !! key with
      | Some d => if rd_resetTime d <? now then window else d
      | None => window
      end in
    let data := mkRateData (rd_count data + 1) (rd_resetTime data) (rd_firstRequest data) in
    let store' := <[key := data]> store in
    let remaining := Z.max 0 (rc_max config - rd_count data) in
    let resetSeconds := ceilDiv (rd_resetTime data - now) 1000 in
    let headers :=
      if rc_headers config
      then [("X-RateLimit-Limit", VNum (rc_max config));
            ("X-RateLimit-Remaining", VNum remaining);
            ("X-RateLimit-Reset", VNum (ceilDiv (rd_resetTime data) 1000));
            ("X-RateLimit-Policy",
             VStr (pretty (rc_max config) +:+ ";w=" +:+
                   pretty (ceilDiv (rc_windowMs config) 1000)))]
      else [] in
    if rc_max config <? rd_count data
    then (mkRateVerdict false (headers ++ [("Retry-After", VNum resetSeconds)])
                        (Some (rc_statusCode config, rc_message config, resetSeconds)),
          store')
    else (mkRateVerdict true headers None, store').

(** [cleanupExpiredEntries] (lines 23-37) *)
Definition cleanupExpiredEntries (now : Z) (store : gmap string RateData)
  : gmap string RateData :=
  filter (λ kv, ¬ (rd_resetTime kv.2 < now)) store.

(** What [getStats] returns. *)
Record RateStats := mkRateStats {
  st_count : Z;
  st_remaining : Z;
  st_resetTime : Z;
  st_resetIn : Z;
  st_isLimited : bool
}.

(** [getStats] (lines 215-227): it measures against [defaults.max]. *)
Definition getStats (key : string) (now : Z) (store : gmap string RateData)
  : option RateStats :=
  data ← store !! key;
  Some (mkRateStats (rd_count data) (Z.max 0 (rc_max defaults - rd_count data))
                    (rd_resetTime data) (Z.max 0 (rd_resetTime data - now))
                    (rc_max defaults <? rd_count data)).

(** [resetKey] (lines 234-237) and [getClientCount] (lines 244-246) *)
Definition resetKey (key : string) (store : gmap string RateData) : gmap string RateData :=
  delete key store.

Definition getClientCount (store : gmap string RateData) : nat := size store.

(** [usePreset('aiProcessing', { max: 10 })], the limiter of the batch
    routes: the preset over the defaults, the override over the preset. *)
Definition batchRateLimiter : RateConfig :=
  mkRateConfig 60000 10
    "AI processing rate limit exceeded. These operations are resource-intensive."
    429 true.

(** The requests of one client, each through a limiter of its own and at
    its own time, and whether each was let through. *)
Fixpoint serve (key : string) (requests : list (RateConfig * Z))
    (store : gmap string RateData) : list bool * gmap string RateData :=
  match requests with
  | [] => ([], store)
  | (config, now) :: rest =>
      let '(verdict, store1) := rateLimiter config false key now store in
      let '(verdicts, store2) := serve key rest store1 in
      (rv_next verdict :: verdicts, store2)
  end.

(** The limiter that [index.js] puts in front of every route,
    [rateLimiter({ windowMs: 60000, max: 100 })]: the options repeat the
    defaults. It counts in the same [rateLimitStore], under the same key,
    as the limiter of the batch routes. *)
Definition globalRateLimiter : RateConfig := defaults.

(** A request to [POST /batch/process] as it arrives: its parsed body, the
    time [Date.now()] gives in each of the two limiters, and the time and
    the random suffix [createBatch] draws. *)
Record Arrival := mkArrival {
  a_req : Request;
  a_global : Z;
  a_batch : Z;
  a_now : Time;
  a_rnd : string
}.

(** [POST /batch/process] behind its middlewares: the limiter of the
    application, the limiter of the route, the validation, the handler. *)
Definition processRoute (key : string) (a : Arrival)
    (limits : gmap string RateData) (w : World)
  : Response * gmap string RateData * World :=
  let '(verdict1, limits1) := rateLimiter globalRateLimiter false key (a_global a) limits in
  if rv_next verdict1
  then
    let '(verdict2, limits2) :=
      rateLimiter batchRateLimiter false key (a_batch a) limits1 in
    let '(response, w') :=
      postProcess (negb (rv_next verdict2)) (a_req a) (a_now a) (a_rnd a) w in
    (response, limits2, w')
  else (RateLimitExceeded, limits1, w).

(** The requests of one client to [POST /batch/process], one after
    another. *)
Fixpoint processRequests (key : string) (arrivals : list Arrival)
    (limits : gmap string RateData) (w : World)
  : list Response * gmap string RateData * World :=
  match arrivals with
  | [] => ([], limits, w)
  | a :: rest =>
      let '(response, limits1, w1) := processRoute key a limits w in
      let '(responses, limits2, w2) := processRequests key rest limits1 w1 in
      (response :: responses, limits2, w2)
  end.

(** A client without a running window at time [now]: no entry, or one
    whose window has ended. *)
Definition no_window (key : string) (now : Z) (store : gmap string RateData) : Prop :=
  match store !! key with
  | Some d => rd_resetTime d < now
  | None => True
  end.

(** ** Lists of items under an in-place update *)

Lemma count_state_alter s f k l it :
  l !! k = Some it →
  count_state s (alter f k l) =
  count_state s l - (if decide (i_state it = s) then 1 else 0)
                  + (if decide (i_state (f it) = s) then 1 else 0).
Proof.
  revert k. induction l as [|x l IH]; intros [|k] Hk; simplify_eq/=.
  - lia.
  - rewrite (IH _ Hk). lia.
Qed.


Lemma count_state_partition l :
  (∀ it, it ∈ l → i_state it = PENDING ∨ i_state it = PROCESSING ∨
                  i_state it = COMPLETED ∨ i_state it = FAILED) →
  count_state COMPLETED l + count_state FAILED l + count_state PENDING l
    + count_state PROCESSING l = Z.of_nat (length l).
Proof.
  induction l as [|x l IH]; intros H; simpl; [done|].
  assert (Hx := H x (list_elem_of_here _ _)).
  rewrite Nat2Z.inj_succ, <- IH by (intros; apply H; by constructor).
  repeat case_decide; destruct Hx as [?|[?|[?|?]]]; congruence || lia.
Qed.


Lemma item_inv_state sl it :
  item_inv sl it →
  i_state it = PENDING ∨ i_state it = PROCESSING ∨
  i_state it = COMPLETED ∨ i_state it = FAILED.
Proof. destruct sl; intros [_ H]; cbv [fresh running settled] in H; tauto. Qed.

Lemma layout_alter d r d' r' f k l it :
  layout d r l →
  l !! k = Some it →
  (item_inv (slot_of d r k) it → item_inv (slot_of d' r' k) (f it)) →
  (∀ j, j ≠ k → (j < length l)%nat → slot_of d' r' j = slot_of d r j) →
  layout d' r' (alter f k l).
Proof.
  intros Hl Hk Hf Hs j it' Hj. destruct (decide (j = k)) as [->|Hne].
  - rewrite list_lookup_alter_eq, Hk in Hj. simplify_eq/=. apply Hf, Hl, Hk.
  - rewrite list_lookup_alter_ne in Hj by done.
    rewrite Hs; [by apply Hl | done | by eapply lookup_lt_Some].
Qed.

(** ** Every synchronous block keeps the invariant *)

Lemma orElse_not_nullish a s : nullish (orElse a (VStr s)) = false.
Proof. unfold orElse. destruct (truthy a) eqn:E; [by destruct a | done]. Qed.

Lemma slot_fresh k : slot_of k false k = SFresh.
Proof. unfold slot_of. by rewrite Nat.ltb_irrefl. Qed.

Lemma slot_running k : slot_of k true k = SRunning.
Proof. unfold slot_of. by rewrite Nat.ltb_irrefl, Nat.eqb_refl. Qed.

Lemma slot_done k : slot_of (S k) false k = SSettled.
Proof. unfold slot_of. by rewrite (proj2 (Nat.ltb_lt k (S k))) by lia. Qed.

Lemma slot_enter k j : j ≠ k → slot_of k true j = slot_of k false j.
Proof.
  intros Hne. unfold slot_of. destruct (j <? k)%nat; [done|].
  simpl. by rewrite (proj2 (Nat.eqb_neq j k)).
Qed.

Lemma slot_advance k j : j ≠ k → slot_of (S k) false j = slot_of k true j.
Proof.
  intros Hne. unfold slot_of.
  destruct (Nat.ltb_spec j (S k)), (Nat.ltb_spec j k); try lia; try done.
  simpl. by rewrite (proj2 (Nat.eqb_neq j k)).
Qed.

Ltac counts_after Hc Hk :=
  destruct Hc as (Ht & Hp & Hpr & Hco & Hfa & Hre & Her); unfold counts_ok; simpl;
  rewrite ?(count_state_alter _ _ _ _ _ Hk), ?length_alter, ?length_app; simpl;
  repeat (case_decide; try congruence); repeat split; lia.

Lemma processItem_begin_ok now k b it :
  counts_ok b → layout k false (b_items b) → b_items b !! k = Some it →
  let b' := (processItem_begin now k b).1 in
  counts_ok b' ∧ layout k true (b_items b') ∧ same_frame b b'.
Proof.
  intros Hc Hl Hk. unfold processItem_begin. rewrite Hk. simpl.
  assert (Hit := Hl _ _ Hk). rewrite slot_fresh in Hit.
  destruct Hit as [Hcap (Hst & Hres & Herr & Hat)].
  split; [|split].
  - counts_after Hc Hk.
  - eapply layout_alter; [done..| |].
    + intros _. rewrite slot_running. split; [done|]. by repeat split.
    + intros j Hne _. by apply slot_enter.
  - unfold same_frame; simpl. by rewrite length_alter.
Qed.

Lemma processItem_success_ok now k v b it :
  counts_ok b → layout k true (b_items b) → b_items b !! k = Some it →
  let b' := (processItem_success now k v b).1 in
  counts_ok b' ∧ layout (S k) false (b_items b') ∧ same_frame b b'.
Proof.
  intros Hc Hl Hk. unfold processItem_success. rewrite Hk. simpl.
  assert (Hit := Hl _ _ Hk). rewrite slot_running in Hit.
  destruct Hit as [Hcap (Hst & Hres & Herr)].
  split; [|split].
  - counts_after Hc Hk.
  - eapply layout_alter; [done..| |].
    + intros _. rewrite slot_done. split; [done|]. by left.
    + intros j Hne _. by apply slot_advance.
  - unfold same_frame; simpl. by rewrite length_alter.
Qed.

Lemma processItem_fail_ok now k e b it :
  counts_ok b → layout k true (b_items b) → b_items b !! k = Some it →
  let b' := (processItem_fail now k e b).1 in
  counts_ok b' ∧ layout (S k) false (b_items b') ∧ same_frame b b'.
Proof.
  intros Hc Hl Hk. unfold processItem_fail. rewrite Hk. simpl.
  assert (Hit := Hl _ _ Hk). rewrite slot_running in Hit.
  destruct Hit as [Hcap (Hst & Hres & Herr)].
  split; [|split].
  - counts_after Hc Hk.
  - eapply layout_alter; [done..| |].
    + intros _. rewrite slot_done. split; [done|]. right. simpl.
      repeat split; [done|]. apply orElse_not_nullish.
    + intros j Hne _. by apply slot_advance.
  - unfold same_frame; simpl. by rewrite length_alter.
Qed.

Lemma same_frame_refl b : same_frame b b.
Proof. done. Qed.

Lemma processItem_loop_ok now k e b it :
  counts_ok b → layout k true (b_items b) → b_items b !! k = Some it →
  executor_post k b (processItem_loop defaultMaxRetries now k e b).
Proof.
  intros Hc Hl Hk. unfold processItem_loop. rewrite Hk.
  destruct (Nat.ltb_spec (i_attempts it) defaultMaxRetries) as [Hlt|Hge].
  - unfold executor_post; simpl. split; [|split].
    + counts_after Hc Hk.
    + unfold same_frame; simpl. by rewrite length_alter.
    + left. split; [by left|].
      eapply layout_alter; [done..| |done].
      rewrite slot_running. intros [_ Hrun].
      split; [unfold defaultMaxRetries in *; simpl; lia | exact Hrun].
  - destruct (processItem_fail_ok now k e b it Hc Hl Hk) as (? & ? & ?).
    destruct (processItem_fail now k e b) as [b' evs]. unfold executor_post; simpl in *.
    split; [done|]. split; [done|]. by right.
Qed.

Lemma processItem_settled_ok now k o b it :
  counts_ok b → layout k true (b_items b) → b_items b !! k = Some it →
  executor_post k b (processItem_settled defaultMaxRetries now k o b).
Proof.
  intros Hc Hl Hk. unfold processItem_settled. destruct o as [v|e].
  - destruct (processItem_success_ok now k v b it Hc Hl Hk) as (? & ? & ?).
    destruct (processItem_success now k v b) as [b' evs]. unfold executor_post; simpl in *.
    split; [done|]. split; [done|]. by right.
  - destruct (getProp e "message").
    + rewrite Hk. destruct (i_attempts it <? defaultMaxRetries)%nat.
      * unfold executor_post; simpl. split; [done|]. split; [done|].
        left. split; [|done]. right; left; eauto.
      * by eapply processItem_loop_ok.
    + unfold executor_post; simpl. split; [done|]. split; [done|].
      left. split; [|done]. by right; right.
Qed.

Lemma processItem_ok now k b it :
  counts_ok b → layout k false (b_items b) → b_items b !! k = Some it →
  executor_post k b (processItem defaultMaxRetries now k b).
Proof.
  intros Hc Hl Hk. unfold processItem.
  destruct (processItem_begin_ok now k b it Hc Hl Hk) as (Hc1 & Hl1 & Hf1).
  destruct (processItem_begin now k b) as [b1 evs1]; simpl in *.
  assert (∃ it1, b_items b1 !! k = Some it1) as [it1 Hk1].
  { apply lookup_lt_is_Some. destruct Hf1 as (_ & _ & ->). by eapply lookup_lt_Some. }
  pose proof (processItem_loop_ok now k VNull b1 it1 Hc1 Hl1 Hk1) as Hpost.
  destruct (processItem_loop defaultMaxRetries now k VNull b1) as [[b2 t] evs2].
  unfold executor_post in *; simpl in *.
  destruct Hpost as (? & Hf2 & ?). split; [done|]. split; [|done].
  destruct Hf1 as (? & ? & ?), Hf2 as (? & ? & ?). unfold same_frame. split_and!; congruence.
Qed.

Lemma finalizeBatch_ok now b :
  counts_ok b →
  let b' := (finalizeBatch now b).1 in
  counts_ok b' ∧ b_items b' = b_items b ∧ b_completedAt b' = Some now ∧
  (b_state b = CANCELLED → b_state b' = CANCELLED) ∧
  (b_state b ≠ CANCELLED → final_state b').
Proof.
  intros Hc. unfold finalizeBatch, final_state. simpl.
  case_decide as Hst; simpl; [by split_and!|].
  destruct (Z.eqb_spec (failed (b_progress b)) 0);
    [|destruct (Z.eqb_spec (completed (b_progress b)) 0)]; simpl;
    split_and!; try done; naive_solver.
Qed.

Lemma executor_post_inv k b x :
  executor_post k b x → in_progress b → (k < length (b_items b))%nat →
  cell_inv (cellOf x).
Proof.
  intros (Hc & (Hst & Hco & Hlen) & Hcase) [Hp Hnone] Hk.
  split; [done|]. unfold cellOf; simpl.
  assert (in_progress x.1.1) by (unfold in_progress; by rewrite Hst, Hco).
  destruct Hcase as [[Ht Hl]|[Ht Hl]].
  - exists k, true. split; [done|].
    destruct Ht as [->|[(e & ms & ->)| ->]]; simpl; rewrite ?Hlen; by split_and!.
  - exists (S k), false. split; [done|]. rewrite Ht; simpl. rewrite Hlen. by split_and!.
Qed.

Lemma processBatch_loop_inv now k b :
  counts_ok b → layout k false (b_items b) → in_progress b →
  cell_inv (cellOf (processBatch_loop now k b)).
Proof.
  intros Hc Hl Hp. unfold processBatch_loop.
  destruct (finalizeBatch_ok now b Hc) as (Hc' & Hit & Hdone & Hcan & Hfin).
  destruct (b_items b !! k) as [it|] eqn:Hk.
  - case_decide as Hst.
    + destruct (finalizeBatch now b) as [b' evs]; simpl in *.
      split; [done|]. exists k, false. simpl. rewrite Hit, Hdone.
      split; [done|]. split_and!; eauto.
    + eapply executor_post_inv; [by eapply processItem_ok|done|by eapply lookup_lt_Some].
  - destruct (finalizeBatch now b) as [b' evs]; simpl in *.
    split; [done|]. exists k, false. simpl. rewrite Hit, Hdone.
    split; [done|]. split_and!; eauto.
    destruct (decide (b_state b = CANCELLED)); [left; auto|right].
    split; [by apply lookup_ge_None|auto].
Qed.

Lemma cell_inv_pending_idle c :
  cell_inv c → b_state (obj c) = PENDING → task c = Idle.
Proof.
  intros (_ & d & r & _ & Ht) Hst. unfold task_ok, in_progress, final_state in Ht.
  destruct (task c); try done; rewrite Hst in Ht; naive_solver.
Qed.

(** The invariant holds along every transition of a batch object. *)
Lemma cell_step_inv c c' : cell_inv c → cell_step c c' → cell_inv c'.
Proof.
  intros Hinv Hstep. destruct Hstep as [now c Hst|now c Hst|now o c|now c|now c].
  - pose proof (cell_inv_pending_idle _ Hinv Hst) as Hidle.
    destruct Hinv as (Hc & d & r & Hl & Ht). rewrite Hidle in Ht.
    destruct Ht as (-> & -> & _ & Hnone).
    unfold processBatch_start.
    set (b1 := batch_with_updatedAt _ _).
    pose proof (processBatch_loop_inv now 0 b1) as Hloop.
    destruct (processBatch_loop now 0 b1) as [[b2 t] evs]. apply Hloop; try done.
    split; [by left|done].
  - destruct Hinv as (Hc & d & r & Hl & Ht). split; [done|]. exists d, r.
    split; [done|]. simpl. unfold task_ok, in_progress in *.
    destruct (task c); simpl; naive_solver.
  - unfold resume_settle. destruct (task c) eqn:Htask; try by destruct c; simplify_eq/=.
    destruct Hinv as (Hc & d & r & Hl & Ht). rewrite Htask in Ht.
    destruct Ht as (-> & -> & Hk & Hp).
    destruct (lookup_lt_is_Some_2 _ _ Hk) as [it Hit].
    eapply executor_post_inv; [by eapply processItem_settled_ok|done..].
  - unfold resume_wake. destruct (task c) eqn:Htask; try by destruct c; simplify_eq/=.
    destruct Hinv as (Hc & d & r & Hl & Ht). rewrite Htask in Ht.
    destruct Ht as (-> & -> & Hk & Hp).
    destruct (lookup_lt_is_Some_2 _ _ Hk) as [it Hit].
    eapply executor_post_inv; [by eapply processItem_loop_ok|done..].
  - unfold resume_next. destruct (task c) eqn:Htask; try by destruct c; simplify_eq/=.
    destruct Hinv as (Hc & d & r & Hl & Ht). rewrite Htask in Ht.
    destruct Ht as (-> & -> & Hk & Hp). by apply processBatch_loop_inv.
Qed.

(** ** From one object to the whole service *)

Lemma lookupBatch_Some batchId w a c :
  lookupBatch batchId w = Some (a, c) ↔ batchJobs w !! batchId = Some a ∧ heap w !! a = Some c.
Proof.
  unfold lookupBatch. destruct (batchJobs w !! batchId) as [a'|]; simpl; [|naive_solver].
  destruct (heap w !! a') as [c'|] eqn:E; simpl; naive_solver.
Qed.

Lemma setCell_lookup a c evs w a' c0 :
  heap w !! a = Some c0 →
  heap (setCell a c evs w) !! a' = if decide (a' = a) then Some c else heap w !! a'.
Proof.
  intros Ha. unfold setCell; simpl. case_decide as Heq.
  - subst. apply list_lookup_insert_eq. by eapply lookup_lt_Some.
  - by apply list_lookup_insert_ne.
Qed.

Lemma resume_cells f a w a' c :
  heap w !! a' = Some c →
  heap (resume f a w) !! a' =
  Some (if decide (a' = a) then cellOf (f (task c) (obj c)) else c).
Proof.
  intros Ha'. unfold resume. case_decide as Heq.
  - subst. rewrite Ha'. destruct (f (task c) (obj c)) as [[b' t'] evs] eqn:E.
    erewrite setCell_lookup by done. by rewrite decide_True.
  - destruct (heap w !! a) as [c0|] eqn:Ha; [|done].
    destruct (f (task c0) (obj c0)) as [[b' t'] evs].
    erewrite setCell_lookup by done. by rewrite decide_False.
Qed.

(** A step of the service moves each existing object by at most one
    transition, and never frees one. *)
Lemma step_cells w act a c :
  heap w !! a = Some c →
  ∃ c', heap (step w act) !! a = Some c' ∧ (c' = c ∨ cell_step c c').
Proof.
  intros Ha. destruct act as [items op opts now rnd|batchId now|batchId now|batchId
                             |a0 o now|a0 now|a0 now]; simpl.
  - unfold createBatch. destruct (newItems 0 items); simpl; [|eauto].
    exists c. split; [|by left]. by apply lookup_app_l_Some.
  - unfold processBatch. destruct (lookupBatch batchId w) as [[a0 c0]|] eqn:E; [|eauto].
    apply lookupBatch_Some in E as [_ Ha0].
    case_decide as Hst; cbn [snd]; [|eauto].
    destruct (processBatch_start now (obj c0)) as [[b' t'] evs] eqn:Hs. cbn [snd].
    erewrite setCell_lookup by done. case_decide; [|eauto]. simplify_eq.
    eexists; split; [done|]. right.
    change (mkCell b' t') with (cellOf (b', t', evs)). rewrite <- Hs. by constructor.
  - unfold cancelBatch. destruct (lookupBatch batchId w) as [[a0 c0]|] eqn:E; [|eauto].
    apply lookupBatch_Some in E as [_ Ha0].
    case_decide as Hst; cbn [snd]; [eauto|].
    erewrite setCell_lookup by done. case_decide; [|eauto]. simplify_eq.
    eexists; split; [done|]. right. by constructor.
  - unfold deleteBatch. destruct (lookupBatch batchId w) as [[a0 c0]|]; [|eauto].
    case_decide; simpl; eauto.
  - rewrite (resume_cells _ _ _ _ _ Ha). eexists; split; [done|].
    case_decide; [right; constructor | by left].
  - rewrite (resume_cells _ _ _ _ _ Ha). eexists; split; [done|].
    case_decide; [right; constructor | by left].
  - rewrite (resume_cells _ _ _ _ _ Ha). eexists; split; [done|].
    case_decide; [right; constructor | by left].
Qed.

(** A property of batch objects that every transition keeps holds from
    then on, whatever the service does. *)
Lemma run_cells (P : Cell → Prop) :
  (∀ c c', P c → cell_step c c' → P c') →
  ∀ acts w a c, heap w !! a = Some c → P c →
  ∃ c', heap (run w acts) !! a = Some c' ∧ P c'.
Proof.
  intros HP. induction acts as [|act acts IH]; intros w a c Ha Hc; simpl; [eauto|].
  destruct (step_cells w act a c Ha) as (c1 & Ha1 & [->|Hstep]); eauto.
Qed.

Lemma newItems_length i items its :
  newItems i items = Some its → length its = length items.
Proof.
  revert i its. induction items as [|x items IH]; intros i its H; simplify_eq/=; [done|].
  destruct (if isString x then _ else _); simplify_eq/=.
  destruct (newItems (S i) items) eqn:E; simplify_eq/=. f_equal. eauto.
Qed.

Lemma newItems_fresh i items its :
  newItems i items = Some its → Forall (λ it, fresh it) its.
Proof.
  revert i its. induction items as [|x items IH]; intros i its H; simplify_eq/=; [done|].
  destruct (if isString x then _ else _); simplify_eq/=.
  destruct (newItems (S i) items) eqn:E; simplify_eq/=. constructor; [done|eauto].
Qed.

Lemma count_state_fresh s l :
  Forall (λ it, fresh it) l →
  count_state s l = if decide (s = PENDING) then Z.of_nat (length l) else 0.
Proof.
  induction 1 as [|it l (Hst & _) _ IH]; simpl; [by case_decide|].
  rewrite IH, Hst. repeat case_decide; try congruence; lia.
Qed.

Lemma created_inv batchId op now its opts n :
  Forall (λ it, fresh it) its → n = Z.of_nat (length its) →
  cell_inv (mkCell (mkBatch batchId PENDING op now now None None its
                            (mkProgress n 0 0 n 0 0) opts [] []) Idle).
Proof.
  intros Hfresh ->. split.
  - unfold counts_ok; simpl. rewrite !count_state_fresh by done.
    repeat case_decide; try congruence. by split_and!.
  - exists 0%nat, false. simpl. split; [|by split_and!; auto].
    intros j it Hj. unfold slot_of; simpl.
    rewrite Forall_lookup in Hfresh. specialize (Hfresh _ _ Hj).
    split; [|done]. destruct Hfresh as (_ & _ & _ & ->). unfold defaultMaxRetries. lia.
Qed.

Lemma step_inv w act : world_inv w → world_inv (step w act).
Proof.
  intros Hw a c' Ha'. destruct (heap w !! a) as [c|] eqn:Ha.
  - destruct (step_cells w act a c Ha) as (c1 & Ha1 & Hc1). simplify_eq.
    destruct Hc1 as [->|Hstep]; [eauto|]. eapply cell_step_inv; eauto.
  - destruct act as [items op opts now rnd|batchId now|batchId now|batchId
                    |a0 o now|a0 now|a0 now]; simpl in Ha'.
    + unfold createBatch in Ha'. destruct (newItems 0 items) as [its|] eqn:E;
        simpl in Ha'; [|congruence].
      apply lookup_ge_None in Ha. rewrite lookup_app_r in Ha' by done.
      apply list_lookup_singleton_Some in Ha' as [_ <-].
      apply created_inv; [by eapply newItems_fresh|].
      by rewrite (newItems_length _ _ _ E).
    + unfold processBatch in Ha'. destruct (lookupBatch batchId w) as [[a0 c0]|];
        [|simpl in *; congruence].
      case_decide; [|simpl in *; congruence].
      destruct (processBatch_start now (obj c0)) as [[b' t'] evs]. simpl in Ha'.
      apply lookup_lt_Some in Ha'. rewrite length_insert in Ha'.
      apply lookup_ge_None in Ha. lia.
    + unfold cancelBatch in Ha'. destruct (lookupBatch batchId w) as [[a0 c0]|];
        [|simpl in *; congruence].
      case_decide; [simpl in *; congruence|]. simpl in Ha'.
      apply lookup_lt_Some in Ha'. rewrite length_insert in Ha'.
      apply lookup_ge_None in Ha. lia.
    + unfold deleteBatch in Ha'. destruct (lookupBatch batchId w) as [[a0 c0]|];
        [|simpl in *; congruence].
      case_decide; simpl in *; congruence.
    + unfold resume in Ha'. destruct (heap w !! a0); [|congruence].
      destruct (resume_settle _ _ _ _) as [[b' t'] evs]. simpl in Ha'.
      apply lookup_lt_Some in Ha'. rewrite length_insert in Ha'.
      apply lookup_ge_None in Ha. lia.
    + unfold resume in Ha'. destruct (heap w !! a0); [|congruence].
      destruct (resume_wake _ _ _) as [[b' t'] evs]. simpl in Ha'.
      apply lookup_lt_Some in Ha'. rewrite length_insert in Ha'.
      apply lookup_ge_None in Ha. lia.
    + unfold resume in Ha'. destruct (heap w !! a0); [|congruence].
      destruct (resume_next _ _ _) as [[b' t'] evs]. simpl in Ha'.
      apply lookup_lt_Some in Ha'. rewrite length_insert in Ha'.
      apply lookup_ge_None in Ha. lia.
Qed.

Lemma run_inv acts : ∀ w, world_inv w → world_inv (run w acts).
Proof.
  induction acts as [|act acts IH]; intros w Hw; simpl; [done|].
  by apply IH, step_inv.
Qed.

Lemma reachable_inv w : reachable w → world_inv w.
Proof. intros [acts ->]. apply run_inv. intros a c Ha. by destruct a. Qed.

(** ** Properties of the processor *)

Lemma layout_states d r l it :
  layout d r l → it ∈ l →
  i_state it = PENDING ∨ i_state it = PROCESSING ∨
  i_state it = COMPLETED ∨ i_state it = FAILED.
Proof.
  intros Hl Hit. apply list_elem_of_lookup in Hit as [j Hj].
  eapply item_inv_state, Hl, Hj.
Qed.

(** C1. In every world the service can reach, for every batch object, the
    four progress counters add up to [progress.total], and
    [progress.total] is the number of items of the batch. *)
Theorem progress_partition (w : World) (a : nat) (c : Cell) :
  reachable w → heap w !! a = Some c →
  let p := b_progress (obj c) in
  completed p + failed p + pending p + processing p = total p ∧
  total p = Z.of_nat (length (b_items (obj c))).
Proof.
  intros Hw Ha. destruct (reachable_inv w Hw a c Ha) as (Hc & d & r & Hl & _).
  destruct Hc as (Ht & Hp & Hpr & Hco & Hfa & _). simpl. split; [|done].
  rewrite Ht, Hp, Hpr, Hco, Hfa. apply count_state_partition.
  intros it Hit. by eapply layout_states.
Qed.

Lemma progress_partition_witness :
  ∃ c, heap (run emptyWorld secondInFlight) !! 0%nat = Some c ∧
       b_progress (obj c) = mkProgress 3 1 0 1 1 33 ∧
       completed (b_progress (obj c)) + failed (b_progress (obj c))
         + pending (b_progress (obj c)) + processing (b_progress (obj c))
       = total (b_progress (obj c)).
Proof.
  eexists. split; [vm_compute; reflexivity|]. split; [reflexivity|].
  eapply (progress_partition (run emptyWorld secondInFlight) 0%nat).
  - by exists secondInFlight.
  - vm_compute; reflexivity.
Defined.



(** C7, as stated, fails: a processor that resolves with [null] leaves a
    completed item whose [result] and [error] are both [null]. *)
Lemma result_error_counterexample :
  ¬ (∀ w a c it, reachable w → heap w !! a = Some c → it ∈ b_items (obj c) →
                 result_error_exclusive it).
Proof.
  intros H.
  set (it := mkItem 0 (VStr "A") VNull COMPLETED VNull VNull 1 (Some 6%N) (Some 7%N)).
  assert (Hit : result_error_exclusive it).
  { eapply (H (run emptyWorld nullResultRun) 0%nat).
    - by exists nullResultRun.
    - vm_compute; reflexivity.
    - simpl. apply list_elem_of_here. }
  destruct Hit as [Hres _]. discriminate Hres.
Qed.

(** C7, amended. In every reachable world and for every item: a failed
    item has an error and no result; a completed item has no error, and
    its result is the value the processor resolved with, [null] included;
    any other item has neither. So at most one of the two is set, [error]
    is set exactly for failed items, and [result] only for completed ones. *)
Theorem result_error_settled (w : World) (a : nat) (c : Cell) (it : Item) :
  reachable w → heap w !! a = Some c → it ∈ b_items (obj c) →
  match i_state it with
  | COMPLETED => i_error it = VNull
  | FAILED => i_result it = VNull ∧ nullish (i_error it) = false
  | _ => i_result it = VNull ∧ i_error it = VNull
  end ∧
  (∀ now k v b it0, b_items b !! k = Some it0 →
     ∃ it1, b_items (processItem_success now k v b).1 !! k = Some it1 ∧
            i_state it1 = COMPLETED ∧ i_result it1 = v).
Proof.
  intros Hw Ha Hit. split.
  - destruct (reachable_inv w Hw a c Ha) as (_ & d & r & Hl & _).
    apply list_elem_of_lookup in Hit as [j Hj].
    destruct (Hl _ _ Hj) as [_ Hslot].
    destruct (slot_of d r j); cbv [fresh running settled] in Hslot.
    + destruct Hslot as (-> & ? & ? & _). done.
    + destruct Hslot as (-> & ? & ?). done.
    + destruct Hslot as [(-> & ?)|(-> & ? & ?)]; done.
  - intros now k v b it0 Hk. unfold processItem_success. rewrite Hk. simpl.
    rewrite list_lookup_alter_eq, Hk. simpl. eauto.
Qed.

Lemma result_error_settled_witness :
  let it := mkItem 1 (VStr "B") VNull FAILED VNull (VStr "boom") 3
                   (Some 8%N) (Some 6011%N) in
  (∃ c, heap (run emptyWorld partialRun) !! 0%nat = Some c ∧
        b_items (obj c) !! 1%nat = Some it) ∧
  i_result it = VNull ∧ nullish (i_error it) = false.
Proof.
  intros it. split.
  - eexists. split; [vm_compute; reflexivity|reflexivity].
  - refine (proj1 (result_error_settled (run emptyWorld partialRun) 0%nat _ it _ _ _)).
    + by exists partialRun.
    + vm_compute; reflexivity.
    + eapply list_elem_of_lookup_2 with (i := 1%nat). reflexivity.
Defined.

(** C9, as stated, fails: [cancelBatch] does not touch [completedAt], so
    a batch cancelled before it was started is [CANCELLED] with
    [completedAt] still [null]. *)
Lemma completedAt_counterexample :
  ¬ (∀ w a c, reachable w → heap w !! a = Some c → terminal (b_state (obj c)) →
              is_Some (b_completedAt (obj c))).
Proof.
  intros H.
  destruct (H (run emptyWorld cancelledBeforeStart) 0%nat
              (mkCell (mkBatch "batch_5_k3x9qa" CANCELLED "process" 5%N 6%N None None
                         [mkItem 0 (VStr "A") VNull PENDING VNull VNull 0 None None;
                          mkItem 1 (VStr "B") VNull PENDING VNull VNull 0 None None]
                         (mkProgress 2 0 0 2 0 0) (VObj []) [] []) Idle))
    as [t Ht].
  - by exists cancelledBeforeStart.
  - vm_compute; reflexivity.
  - right; right; by left.
  - discriminate Ht.
Qed.

(** C9, amended. In every reachable world, [completedAt] of a batch is set
    exactly when its call of [processBatch] has run [finalizeBatch] and
    returned. A batch in state [COMPLETED], [FAILED] or [PARTIAL] is in
    that case; a [CANCELLED] batch is in that case only once the loop of
    [processBatch] has ended. *)
Theorem completedAt_finalized (w : World) (a : nat) (c : Cell) :
  reachable w → heap w !! a = Some c →
  (is_Some (b_completedAt (obj c)) ↔ task c = Returned) ∧
  (b_state (obj c) = COMPLETED ∨ b_state (obj c) = FAILED ∨ b_state (obj c) = PARTIAL →
   task c = Returned).
Proof.
  intros Hw Ha. destruct (reachable_inv w Hw a c Ha) as (_ & d & r & _ & Ht).
  unfold task_ok, in_progress in Ht.
  destruct (task c);
    try (assert (b_completedAt (obj c) = None ∧
                 (b_state (obj c) = PENDING ∨ b_state (obj c) = PROCESSING ∨
                  b_state (obj c) = CANCELLED)) as [Hnone Hst] by naive_solver;
         split; [split; [intros [t Hsome]; congruence | done]
                |intros [?|[?|?]]; destruct Hst as [?|[?|?]]; congruence]).
  destruct Ht as (_ & Hsome & _). done.
Qed.

Lemma completedAt_finalized_witness :
  ∃ c, heap (run emptyWorld partialRun) !! 0%nat = Some c ∧
       b_state (obj c) = PARTIAL ∧ b_completedAt (obj c) = Some 6012%N ∧
       task c = Returned.
Proof.
  eexists. split; [vm_compute; reflexivity|]. split; [reflexivity|].
  split; [reflexivity|].
  refine (proj2 (completedAt_finalized (run emptyWorld partialRun) 0%nat _ _ _) _).
  - by exists partialRun.
  - vm_compute; reflexivity.
  - right; right; reflexivity.
Defined.




(** C10. [cancelBatch] on an id that the store does not hold returns
    [false] and leaves the world as it is; the function has no way to
    throw. *)
Theorem cancel_missing (w : World) (batchId : string) (now : Time) :
  batchJobs w !! batchId = None → cancelBatch batchId now w = (false, w).
Proof. intros Hnone. unfold cancelBatch, lookupBatch. by rewrite Hnone. Qed.

Lemma cancel_missing_witness :
  cancelBatch "batch_9_zzzzzz" 7%N (run emptyWorld partialRun)
  = (false, run emptyWorld partialRun).
Proof. apply cancel_missing. vm_compute; reflexivity. Defined.



(** The delay the executor sleeps for is the backoff delay of the attempt
    that just failed. *)
Lemma sleep_uses_backoff cap now k e b b' k' e' ms evs :
  processItem_settled cap now k (Thrown e) b = (b', AwaitSleep k' e' ms, evs) →
  ∃ it, b_items b !! k = Some it ∧ (i_attempts it < cap)%nat ∧
        ms = backoffDelay (i_attempts it).
Proof.
  unfold processItem_settled, processItem_loop.
  destruct (getProp e "message"); [|done].
  destruct (b_items b !! k) as [it|]; [|done].
  destruct (Nat.ltb_spec (i_attempts it) cap); [intros; simplify_eq; eauto|].
  by destruct (processItem_fail now k e b).
Qed.

(** C8. The code leaves a terminal state: on a batch that finished
    [PARTIAL], [cancelBatch] (whose guard names only [COMPLETED] and
    [FAILED]) returns [true] and makes the batch [CANCELLED]. *)
Theorem cancel_leaves_partial :
  let w := run emptyWorld partialRun in
  (b_state <$> getBatch "batch_5_k3x9qa" w) = Some PARTIAL ∧
  (cancelBatch "batch_5_k3x9qa" 7000%N w).1 = true ∧
  (b_state <$> getBatch "batch_5_k3x9qa" (cancelBatch "batch_5_k3x9qa" 7000%N w).2)
    = Some CANCELLED.
Proof. vm_compute. done. Qed.

(** The other three terminal states are never left. *)
Lemma terminal_state_stable c c' :
  cell_inv c → cell_step c c' →
  b_state (obj c) = COMPLETED ∨ b_state (obj c) = FAILED ∨ b_state (obj c) = CANCELLED →
  b_state (obj c') = b_state (obj c).
Proof.
  intros Hinv Hstep Hst.
  destruct Hstep as [now c Hp|now c Hg|now o c|now c|now c].
  - destruct Hst as [?|[?|?]]; congruence.
  - simpl. destruct Hst as [?|[?|?]]; [tauto|tauto|done].
  - unfold resume_settle in *. destruct (task c) eqn:Htask; try done.
    destruct Hinv as (Hc & d & r & Hl & Ht). rewrite Htask in Ht.
    destruct Ht as (-> & -> & Hk & Hp).
    destruct (lookup_lt_is_Some_2 _ _ Hk) as [it Hit].
    by destruct (processItem_settled_ok now k o _ it Hc Hl Hit) as (_ & (? & _) & _).
  - unfold resume_wake in *. destruct (task c) eqn:Htask; try done.
    destruct Hinv as (Hc & d & r & Hl & Ht). rewrite Htask in Ht.
    destruct Ht as (-> & -> & Hk & Hp).
    destruct (lookup_lt_is_Some_2 _ _ Hk) as [it Hit].
    by destruct (processItem_loop_ok now k lastError _ it Hc Hl Hit) as (_ & (? & _) & _).
  - unfold resume_next in *. destruct (task c) eqn:Htask; try done.
    destruct Hinv as (Hc & d & r & Hl & Ht). rewrite Htask in Ht.
    destruct Ht as (-> & -> & Hk & [[Hpr|Hcan] Hnone]);
      [destruct Hst as [?|[?|?]]; congruence|].
    unfold processBatch_loop.
    destruct (finalizeBatch_ok now (obj c) Hc) as (_ & _ & _ & Hkeep & _).
    destruct (b_items (obj c) !! S k); [rewrite decide_True by done|];
      destruct (finalizeBatch now (obj c)); simpl in *; rewrite Hcan; auto.
Qed.

(** ** Cancellation *)


Lemma layout_beyond d r l j it :
  layout d r l → (d < j)%nat ∨ (d = j ∧ r = false) → l !! j = Some it → fresh it.
Proof.
  intros Hl Hj Hit. destruct (Hl _ _ Hit) as [_ Hs]. unfold slot_of in Hs.
  destruct (Nat.ltb_spec j d); [lia|].
  destruct Hj as [Hj|[-> ->]]; [|done].
  destruct (Nat.eqb_spec j d); [lia|]. by rewrite andb_false_r in Hs.
Qed.




Lemma processItem_success_state now k v b :
  b_state (processItem_success now k v b).1 = b_state b.
Proof. unfold processItem_success. by destruct (b_items b !! k). Qed.

Lemma processItem_fail_state now k e b :
  b_state (processItem_fail now k e b).1 = b_state b.
Proof. unfold processItem_fail. by destruct (b_items b !! k). Qed.

Lemma processItem_loop_shape cap now k e b :
  b_state (processItem_loop cap now k e b).1.1 = b_state b ∧
  ((processItem_loop cap now k e b).1.2 = AwaitProcessor k ∨
   (processItem_loop cap now k e b).1.2 = AwaitItem k).
Proof.
  unfold processItem_loop. destruct (b_items b !! k) as [it|]; [|by auto].
  destruct (i_attempts it <? cap)%nat; [by auto|].
  pose proof (processItem_fail_state now k e b).
  destruct (processItem_fail now k e b). by auto.
Qed.





(** ** Validation of the create request *)

Lemma checks_nonempty (l : list Value) m1 m2 rest :
  (l = [] ∨ 50 < length l)%nat →
  check (length l <? 1)%nat m1 ++ check (50 <? length l)%nat m2 ++ rest ≠ [].
Proof.
  intros [->|Hlen]; [done|].
  rewrite (proj2 (Nat.ltb_lt 50 (length l))) by done.
  by destruct (length l <? 1)%nat.
Qed.

Lemma sessions_length_rejected fields l :
  assoc "sessions" fields = VArr l → (l = [] ∨ 50 < length l)%nat →
  validateValue noFormats processRouteBody (VObj fields) "" ≠ [] ∧
  validateValue noFormats batchProcess (VObj fields) "" ≠ [].
Proof.
  intros Hs Hlen. pose proof (checks_nonempty l) as Hne.
  split; cbn -[Nat.ltb]; rewrite Hs; cbn -[Nat.ltb].
  - intros Heq.
    repeat match type of Heq with
           | (_ ++ _) ++ _ = [] => apply app_eq_nil in Heq as [Heq _]
           end.
    by eapply Hne.
  - intros Heq.
    repeat match type of Heq with
           | (_ ++ _) ++ _ = [] => apply app_eq_nil in Heq as [Heq _]
           end.
    by eapply Hne.
Qed.

(** C3, as stated, fails: [createBatch] validates nothing. Called with an
    empty list it returns a batch and stores it. *)
Lemma create_empty_counterexample :
  ¬ (∀ items operation processOptions now rnd w,
       (items = [] ∨ 50 < length items)%nat →
       createBatch items operation processOptions now rnd w = (None, w)).
Proof.
  intros H. specialize (H [] "process" (VObj []) 5%N "k3x9qa" emptyWorld (or_introl eq_refl)).
  discriminate H.
Qed.

(** C3, amended. The size of the list is checked by the validation
    middleware of the HTTP route, not by [createBatch]. A request to
    [POST /batch/process] whose [sessions] array is empty or has more than
    50 entries leaves the job store as it is and, when the rate limiter
    lets it through, is answered with the validation error; the preset
    schema [schemas.batchProcess] rejects the same bodies. [createBatch]
    itself stores a batch for the empty list. *)
Theorem create_request_validated
    (limited : bool) (fields : list (string * Value)) (l : list Value)
    (now : Time) (rnd : string) (w : World) :
  assoc "sessions" fields = VArr l → (l = [] ∨ 50 < length l)%nat →
  (postProcess limited (mkRequest (VObj fields)) now rnd w).2 = w ∧
  (limited = false →
   ∃ errors, errors ≠ [] ∧
     (postProcess limited (mkRequest (VObj fields)) now rnd w).1 = ValidationError errors) ∧
  validate (Some batchProcess) (mkRequest (VObj fields)) ≠ [] ∧
  ∃ batch w', createBatch [] "process" (VObj []) now rnd w = (Some batch, w') ∧
              getBatch (b_id batch) w' = Some batch.
Proof.
  intros Hs Hlen. destruct (sessions_length_rejected fields l Hs Hlen) as [Hroute Hpreset].
  assert (validate (Some processRouteBody) (mkRequest (VObj fields)) ≠ []) as Hv.
  { unfold validate. simpl truthy. cbv iota. intros Heq. by apply fmap_nil_inv in Heq. }
  split_and!.
  - unfold postProcess. destruct limited; [done|].
    destruct (validate (Some processRouteBody) (mkRequest (VObj fields)));
      [exfalso; by apply Hv|reflexivity].
  - intros ->. unfold postProcess.
    destruct (validate (Some processRouteBody) (mkRequest (VObj fields))) as [|e errors];
      [done|]. exists (e :: errors). by split.
  - unfold validate. simpl truthy. cbv iota. intros Heq. by apply fmap_nil_inv in Heq.
  - eexists _, _. split; [reflexivity|].
    unfold getBatch, lookupBatch. cbn [batchJobs heap b_id].
    rewrite lookup_insert_eq. cbn. by rewrite lookup_app_r, Nat.sub_diag.
Qed.

Lemma create_request_validated_witness :
  (postProcess false (mkRequest (VObj [("sessions", VArr [])])) 5%N "k3x9qa" emptyWorld).2
  = emptyWorld.
Proof.
  refine (proj1 (create_request_validated false [("sessions", VArr [])] [] 5%N "k3x9qa"
                   emptyWorld _ _)).
  - reflexivity.
  - left. reflexivity.
Defined.

(** ** Induction over the reachable worlds *)

Lemma step_new_cell w act a c' :
  heap w !! a = None → heap (step w act) !! a = Some c' → created c'.
Proof.
  intros Ha Ha'.
  assert (∀ (l : list Cell) a0 c0, l !! a = None → <[a0:=c0]> l !! a = Some c' → False)
    as Hins.
  { intros l a0 c0 Hn Hs. apply lookup_lt_Some in Hs. rewrite length_insert in Hs.
    apply lookup_ge_None in Hn. lia. }
  destruct act as [items op opts now rnd|batchId now|batchId now|batchId
                  |a0 o now|a0 now|a0 now]; simpl in Ha'.
  - unfold createBatch in Ha'. destruct (newItems 0 items) as [its|] eqn:E;
      simpl in Ha'; [|congruence].
    apply lookup_ge_None in Ha. rewrite lookup_app_r in Ha' by done.
    apply list_lookup_singleton_Some in Ha' as [_ <-].
    by exists items, its, (generateBatchId now rnd), op, now, opts.
  - unfold processBatch in Ha'. destruct (lookupBatch batchId w) as [[a0 c0]|];
      [|simpl in *; congruence].
    case_decide; [|simpl in *; congruence].
    destruct (processBatch_start now (obj c0)) as [[b' t'] evs]. simpl in Ha'.
    by destruct (Hins _ _ _ Ha Ha').
  - unfold cancelBatch in Ha'. destruct (lookupBatch batchId w) as [[a0 c0]|];
      [|simpl in *; congruence].
    case_decide; [simpl in *; congruence|]. simpl in Ha'. by destruct (Hins _ _ _ Ha Ha').
  - unfold deleteBatch in Ha'. destruct (lookupBatch batchId w) as [[a0 c0]|];
      [|simpl in *; congruence].
    case_decide; simpl in *; congruence.
  - unfold resume in Ha'. destruct (heap w !! a0); [|congruence].
    destruct (resume_settle _ _ _ _) as [[b' t'] evs]. simpl in Ha'.
    by destruct (Hins _ _ _ Ha Ha').
  - unfold resume in Ha'. destruct (heap w !! a0); [|congruence].
    destruct (resume_wake _ _ _) as [[b' t'] evs]. simpl in Ha'.
    by destruct (Hins _ _ _ Ha Ha').
  - unfold resume in Ha'. destruct (heap w !! a0); [|congruence].
    destruct (resume_next _ _ _) as [[b' t'] evs]. simpl in Ha'.
    by destruct (Hins _ _ _ Ha Ha').
Qed.

(** A property that holds of every created batch and that every
    transition keeps holds of every batch of every reachable world. *)
Lemma reachable_cells (P : Cell → Prop) :
  (∀ c, created c → P c) →
  (∀ c c', cell_inv c → P c → cell_step c c' → P c') →
  ∀ w, reachable w → ∀ a c, heap w !! a = Some c → P c.
Proof.
  intros Hnew Hstep w [acts ->].
  assert (∀ acts w0, world_inv w0 → (∀ a c, heap w0 !! a = Some c → P c) →
                     ∀ a c, heap (run w0 acts) !! a = Some c → P c) as Hrun.
  { clear acts. induction acts as [|act acts IH]; intros w0 Hinv HP; simpl; [done|].
    apply IH; [by apply step_inv|]. intros a c' Ha'.
    destruct (heap w0 !! a) as [c|] eqn:Ha.
    - destruct (step_cells w0 act a c Ha) as (c1 & Ha1 & Hc1). simplify_eq.
      destruct Hc1 as [->|Hs]; eauto.
    - eapply Hnew, step_new_cell; eauto. }
  apply Hrun; [|by intros [|a] c].
  intros a c Ha. by destruct a.
Qed.

(** ** The outputs of a batch *)

Lemma omap_alter_same {A B} (g : A → option B) (f : A → A) k (l : list A) x :
  l !! k = Some x → g (f x) = g x → omap g (alter f k l) = omap g l.
Proof.
  revert k. induction l as [|y l IH]; intros [|k] Hk Hg; simplify_eq/=; [by rewrite Hg|].
  by rewrite (IH k).
Qed.

Lemma omap_all_None {A B} (g : A → option B) (l : list A) :
  (∀ j y, l !! j = Some y → g y = None) → omap g l = [].
Proof.
  induction l as [|y l IH]; intros H; simpl; [done|].
  rewrite (H 0%nat y eq_refl). apply IH. intros j z Hj. by apply (H (S j)).
Qed.

Lemma omap_alter_push {A B} (g : A → option B) (f : A → A) k (l : list A) x e :
  l !! k = Some x → g x = None → g (f x) = Some e →
  (∀ j y, (k < j)%nat → l !! j = Some y → g y = None) →
  omap g (alter f k l) = omap g l ++ [e].
Proof.
  revert k. induction l as [|y l IH]; intros [|k] Hk Hx Hfx Hrest; simplify_eq/=.
  - rewrite Hx, Hfx. rewrite omap_all_None; [done|].
    intros j z Hj. apply (Hrest (S j)); [lia|done].
  - rewrite (IH k) by first [done | intros j z ? Hj; apply (Hrest (S j)); [lia|done]].
    by destruct (g y).
Qed.

Lemma layout_rest_pending d r l k j it :
  layout d r l → (d ≤ k)%nat → (k < j)%nat → l !! j = Some it → i_state it = PENDING.
Proof.
  intros Hl Hd Hj Hit. apply (layout_beyond d r l j it Hl) in Hit as [? _]; [done|].
  left; lia.
Qed.

Lemma lookup_alter_inv {A} (P : nat → A → Prop) (f : A → A) k (l : list A) x :
  l !! k = Some x → (∀ j y, l !! j = Some y → P j y) → P k (f x) →
  ∀ j y, alter f k l !! j = Some y → P j y.
Proof.
  intros Hk Hall Hfx j y Hj. destruct (decide (j = k)) as [->|Hne].
  - rewrite list_lookup_alter_eq, Hk in Hj. by simplify_eq/=.
  - rewrite list_lookup_alter_ne in Hj by done. eauto.
Qed.

Lemma processItem_begin_out now k b it :
  layout k false (b_items b) → b_items b !! k = Some it →
  outputs_inv b → outputs_inv (processItem_begin now k b).1.
Proof.
  intros Hl Hk (Hres & Herr & Hidx & Hpc). unfold processItem_begin. rewrite Hk.
  destruct (Hl _ _ Hk) as [_ Hfr]. rewrite slot_fresh in Hfr. destruct Hfr as (Hst & _).
  split_and!; simpl.
  - rewrite (omap_alter_same _ _ _ _ it); [done..|].
    unfold resultEntry; simpl. rewrite Hst. by repeat case_decide.
  - rewrite (omap_alter_same _ _ _ _ it); [done..|].
    unfold errorEntry; simpl. rewrite Hst. by repeat case_decide.
  - apply (lookup_alter_inv (λ j y, i_index y = j ∧ attempts_ok y) _ _ _ it); [done..|].
    split; [apply (Hidx _ _ Hk)|done].
  - exact Hpc.
Qed.

Lemma updateProgress_percent now b : percent_ok (updateProgress now b).1.
Proof. done. Qed.

Lemma processItem_success_out now k v b it :
  layout k true (b_items b) → b_items b !! k = Some it → (1 ≤ i_attempts it)%nat →
  outputs_inv b → outputs_inv (processItem_success now k v b).1.
Proof.
  intros Hl Hk Hat (Hres & Herr & Hidx & Hpc). unfold processItem_success. rewrite Hk.
  destruct (Hl _ _ Hk) as [Hcap Hrun]. rewrite slot_running in Hrun.
  destruct Hrun as (Hst & _).
  split_and!; simpl.
  - rewrite (omap_alter_push _ _ _ _ it (mkResultEntry (i_index it) (i_id it) v));
      [by rewrite Hres| done | | |].
    + unfold resultEntry. rewrite Hst. by case_decide.
    + done.
    + intros j y Hj Hy. unfold resultEntry.
      rewrite (layout_rest_pending k true _ k j y Hl) by done. by case_decide.
  - rewrite (omap_alter_same _ _ _ _ it); [done..|].
    unfold errorEntry; simpl. rewrite Hst. by repeat case_decide.
  - apply (lookup_alter_inv (λ j y, i_index y = j ∧ attempts_ok y) _ _ _ it); [done..|].
    split; [apply (Hidx _ _ Hk)|]. unfold attempts_ok; simpl. lia.
  - done.
Qed.

Lemma processItem_fail_out now k e b it :
  layout k true (b_items b) → b_items b !! k = Some it →
  ¬ (i_attempts it < defaultMaxRetries)%nat →
  outputs_inv b → outputs_inv (processItem_fail now k e b).1.
Proof.
  intros Hl Hk Hat (Hres & Herr & Hidx & Hpc). unfold processItem_fail. rewrite Hk.
  destruct (Hl _ _ Hk) as [Hcap Hrun]. rewrite slot_running in Hrun.
  destruct Hrun as (Hst & _).
  split_and!; simpl.
  - rewrite (omap_alter_same _ _ _ _ it); [done..|].
    unfold resultEntry; simpl. rewrite Hst. by repeat case_decide.
  - rewrite (omap_alter_push _ _ _ _ it
               (mkErrorEntry (i_index it) (i_id it)
                  (orElse (getPropOpt e "message") (VStr "Unknown error"))
                  (i_attempts it)));
      [by rewrite Herr| done | | |].
    + unfold errorEntry. rewrite Hst. by case_decide.
    + done.
    + intros j y Hj Hy. unfold errorEntry.
      rewrite (layout_rest_pending k true _ k j y Hl) by done. by case_decide.
  - apply (lookup_alter_inv (λ j y, i_index y = j ∧ attempts_ok y) _ _ _ it); [done..|].
    split; [apply (Hidx _ _ Hk)|]. unfold attempts_ok; simpl. lia.
  - done.
Qed.

Lemma processItem_loop_out now k e b it :
  layout k true (b_items b) → b_items b !! k = Some it →
  outputs_inv b → outputs_post k (processItem_loop defaultMaxRetries now k e b).
Proof.
  intros Hl Hk Hout. unfold processItem_loop. rewrite Hk.
  destruct (Nat.ltb_spec (i_attempts it) defaultMaxRetries) as [Hlt|Hge].
  - destruct (Hl _ _ Hk) as [Hcap Hrun]. rewrite slot_running in Hrun.
    destruct Hrun as (Hst & _). destruct Hout as (Hres & Herr & Hidx & Hpc).
    split_and!; simpl; [split_and!; simpl|..].
    + rewrite (omap_alter_same _ _ _ _ it); [done..|].
      unfold resultEntry; simpl. by repeat case_decide.
    + rewrite (omap_alter_same _ _ _ _ it); [done..|].
      unfold errorEntry; simpl. rewrite Hst. by repeat case_decide.
    + apply (lookup_alter_inv (λ j y, i_index y = j ∧ attempts_ok y) _ _ _ it); [done..|].
      split; [apply (Hidx _ _ Hk)|]. unfold attempts_ok; simpl. by rewrite Hst.
    + done.
    + intros k' it' [= <-]. rewrite list_lookup_alter_eq, Hk. intros [= <-]. simpl. lia.
    + done.
  - pose proof (processItem_fail_out now k e b it Hl Hk) as Hfail.
    destruct (processItem_fail now k e b) as [b' evs]. split_and!; simpl in *.
    + apply Hfail; [lia|done].
    + done.
    + done.
Qed.

Lemma processItem_settled_out now k o b it :
  layout k true (b_items b) → b_items b !! k = Some it → (1 ≤ i_attempts it)%nat →
  outputs_inv b → outputs_post k (processItem_settled defaultMaxRetries now k o b).
Proof.
  intros Hl Hk Hat Hout. unfold processItem_settled. destruct o as [v|e].
  - pose proof (processItem_success_out now k v b it Hl Hk Hat Hout) as Hs.
    destruct (processItem_success now k v b) as [b' evs]. by split_and!.
  - destruct (getProp e "message"); [|by split_and!].
    rewrite Hk. destruct (i_attempts it <? defaultMaxRetries)%nat; [by split_and!|].
    by eapply processItem_loop_out.
Qed.

Lemma processItem_out now k b it :
  layout k false (b_items b) → b_items b !! k = Some it →
  outputs_inv b → outputs_post k (processItem defaultMaxRetries now k b).
Proof.
  intros Hl Hk Hout. unfold processItem.
  pose proof (processItem_begin_out now k b it Hl Hk Hout) as Hout1.
  assert (layout k true (b_items (processItem_begin now k b).1) ∧
          ∃ it1, b_items (processItem_begin now k b).1 !! k = Some it1) as [Hl1 [it1 Hk1]].
  { unfold processItem_begin. rewrite Hk. simpl. split.
    - eapply layout_alter; [done..| |].
      + rewrite slot_fresh, slot_running. intros [Hcap (Hst & Hres & Herr & _)].
        split; [done|]. by repeat split.
      + intros j Hne _. by apply slot_enter.
    - rewrite list_lookup_alter_eq, Hk. simpl. eauto. }
  destruct (processItem_begin now k b) as [b1 evs1]; simpl in *.
  pose proof (processItem_loop_out now k VNull b1 it1 Hl1 Hk1 Hout1) as Hpost.
  by destruct (processItem_loop defaultMaxRetries now k VNull b1) as [[b2 t] evs2].
Qed.

Lemma finalizeBatch_out now b : outputs_inv b → outputs_inv (finalizeBatch now b).1.
Proof.
  intros Hout. unfold finalizeBatch; simpl.
  case_decide; [done|].
  destruct (failed (b_progress b) =? 0); [done|].
  by destruct (completed (b_progress b) =? 0).
Qed.

Lemma processBatch_loop_out now k b :
  layout k false (b_items b) → outputs_inv b →
  outputs_post k (processBatch_loop now k b).
Proof.
  intros Hl Hout. unfold processBatch_loop.
  pose proof (finalizeBatch_out now b Hout) as Hfin.
  destruct (b_items b !! k) as [it|] eqn:Hk.
  - case_decide; [|by eapply processItem_out].
    destruct (finalizeBatch now b) as [b' evs]. by split_and!.
  - destruct (finalizeBatch now b) as [b' evs]. by split_and!.
Qed.

(** No block of [processBatch] touches [startedAt]. *)
Lemma processItem_loop_startedAt cap now k e b :
  b_startedAt (processItem_loop cap now k e b).1.1 = b_startedAt b.
Proof.
  unfold processItem_loop, processItem_fail.
  destruct (b_items b !! k) as [it|]; [|done]. by destruct (i_attempts it <? cap)%nat.
Qed.

Lemma processItem_settled_startedAt cap now k o b :
  b_startedAt (processItem_settled cap now k o b).1.1 = b_startedAt b.
Proof.
  unfold processItem_settled, processItem_success. destruct o as [v|e].
  - by destruct (b_items b !! k).
  - destruct (getProp e "message"); [|done].
    destruct (b_items b !! k) as [it|] eqn:Hk; [|done].
    destruct (i_attempts it <? cap)%nat eqn:E; [done|].
    apply processItem_loop_startedAt.
Qed.

Lemma finalizeBatch_startedAt now b :
  b_startedAt (finalizeBatch now b).1 = b_startedAt b.
Proof.
  unfold finalizeBatch; simpl. case_decide; [done|].
  destruct (failed (b_progress b) =? 0); [done|].
  by destruct (completed (b_progress b) =? 0).
Qed.

Lemma processBatch_loop_startedAt now k b :
  b_startedAt (processBatch_loop now k b).1.1 = b_startedAt b.
Proof.
  unfold processBatch_loop. pose proof (finalizeBatch_startedAt now b) as Hfin.
  destruct (b_items b !! k) as [it|] eqn:Hk.
  - case_decide; [by destruct (finalizeBatch now b)|].
    unfold processItem.
    assert (b_startedAt (processItem_begin now k b).1 = b_startedAt b) as Hb
      by (unfold processItem_begin; by rewrite Hk).
    destruct (processItem_begin now k b) as [b1 evs1].
    pose proof (processItem_loop_startedAt defaultMaxRetries now k VNull b1) as Hlp.
    destruct (processItem_loop defaultMaxRetries now k VNull b1) as [[b2 t] evs2].
    simpl in *. congruence.
  - by destruct (finalizeBatch now b).
Qed.

(** The further invariant holds along every transition. *)
Lemma extra_step c c' : cell_inv c → extra_inv c → cell_step c c' → extra_inv c'.
Proof.
  intros Hinv (Hout & Hatt & Hstart) Hstep.
  assert (∀ k x (b : Batch), outputs_post k x → b_startedAt x.1.1 = b_startedAt b →
            is_Some (b_startedAt b) → extra_inv (cellOf x)) as Hpost.
  { intros k x b (Ho & Ha & Hni) Hsame [t Hs]. split_and!; [done|done|].
    unfold cellOf; simpl. rewrite Hsame, Hs. split; [done|intros ?; by destruct Hni]. }
  assert (task c ≠ Idle → is_Some (b_startedAt (obj c))) as Hsome.
  { intros Hni. destruct (b_startedAt (obj c)); [eauto|]. destruct Hni. by apply Hstart. }
  destruct Hinv as (Hc & d & r & Hl & Ht).
  destruct Hstep as [now c Hp|now c Hg|now o c|now c|now c].
  - assert (task c = Idle) as Hidle.
    { eapply cell_inv_pending_idle; [|done]. split; [done|]. by exists d, r. }
    rewrite Hidle in Ht. destruct Ht as (-> & -> & _).
    unfold processBatch_start.
    set (b1 := batch_with_updatedAt _ _).
    pose proof (processBatch_loop_out now 0 b1 Hl Hout) as Hlp.
    pose proof (processBatch_loop_startedAt now 0 b1) as Hsa.
    destruct (processBatch_loop now 0 b1) as [[b2 t] evs].
    apply (Hpost 0%nat (b2, t, EvStarted (b_id (obj c)) (length (b_items (obj c))) :: evs) b1);
      [done|done|by eexists].
  - by split_and!.
  - unfold resume_settle. destruct (task c) as [|k|k e ms|k| |] eqn:E;
      try (by split_and!).
    destruct Ht as (-> & -> & Hk & _).
    destruct (lookup_lt_is_Some_2 _ _ Hk) as [it Hit].
    apply (Hpost k _ (obj c)); [|apply processItem_settled_startedAt|by apply Hsome].
    eapply processItem_settled_out; eauto.
  - unfold resume_wake. destruct (task c) as [|k|k e ms|k| |] eqn:E;
      try (by split_and!).
    destruct Ht as (-> & -> & Hk & _).
    destruct (lookup_lt_is_Some_2 _ _ Hk) as [it Hit].
    apply (Hpost k _ (obj c)); [|apply processItem_loop_startedAt|by apply Hsome].
    eapply processItem_loop_out; eauto.
  - unfold resume_next. destruct (task c) as [|k|k e ms|k| |] eqn:E;
      try (by split_and!).
    destruct Ht as (-> & -> & Hk & _).
    apply (Hpost (S k) _ (obj c)); [|apply processBatch_loop_startedAt|by apply Hsome].
    by apply processBatch_loop_out.
Qed.

Lemma newItems_index i items its j it :
  newItems i items = Some its → its !! j = Some it → i_index it = (i + j)%nat.
Proof.
  revert i its j. induction items as [|x items IH]; intros i its j H Hj; simplify_eq/=.
  destruct (if isString x then _ else _); simplify_eq/=.
  destruct (newItems (S i) items) eqn:E; simplify_eq/=.
  destruct j as [|j]; simplify_eq/=; [lia|]. rewrite (IH _ _ _ E Hj). lia.
Qed.

Lemma created_extra c : created c → extra_inv c.
Proof.
  intros (items & its & batchId & op & now & opts & Hnew & ->).
  pose proof (newItems_fresh _ _ _ Hnew) as Hfr. rewrite Forall_lookup in Hfr.
  split_and!; simpl; try done.
  - split_and!; simpl.
    + symmetry. apply omap_all_None. intros j y Hj. unfold resultEntry.
      destruct (Hfr _ _ Hj) as [-> _]. by case_decide.
    + symmetry. apply omap_all_None. intros j y Hj. unfold errorEntry.
      destruct (Hfr _ _ Hj) as [-> _]. by case_decide.
    + intros j it Hj. split; [by rewrite (newItems_index _ _ _ _ _ Hnew Hj)|].
      unfold attempts_ok. by destruct (Hfr _ _ Hj) as (-> & _ & _ & ->).
    + unfold percent_ok; simpl. rewrite Z.add_0_l.
      destruct (Z.of_nat (length items)) as [|p|p] eqn:E; [done| |lia].
      symmetry. apply Z.div_small. lia.
Qed.

Lemma reachable_extra w a c :
  reachable w → heap w !! a = Some c → cell_inv c ∧ extra_inv c.
Proof.
  intros Hw Ha. split; [by eapply reachable_inv|].
  eapply (reachable_cells extra_inv); eauto using created_extra, extra_step.
Qed.

(** ** Further properties of the batch service *)

(** X1. In every reachable world, [results] holds exactly one entry
    [{index, id, result}] per completed item and [errors] exactly one entry
    [{index, id, error, attempts}] per failed item, both in the order of
    the items; and the [index] of an item is its position in [items]. *)
Theorem outputs_follow_items (w : World) (a : nat) (c : Cell) :
  reachable w → heap w !! a = Some c →
  b_results (obj c) = omap resultEntry (b_items (obj c)) ∧
  b_errors (obj c) = omap errorEntry (b_items (obj c)) ∧
  ∀ j it, b_items (obj c) !! j = Some it → i_index it = j.
Proof.
  intros Hw Ha. destruct (reachable_extra w a c Hw Ha) as [_ ((Hres & Herr & Hidx & _) & _)].
  split_and!; [done..|]. intros j it Hj. apply (Hidx _ _ Hj).
Qed.

Lemma outputs_follow_items_witness :
  ∃ c, heap (run emptyWorld partialRun) !! 0%nat = Some c ∧
       b_results (obj c) = [mkResultEntry 0 (VStr "A") (VStr "ok")] ∧
       b_errors (obj c) = omap errorEntry (b_items (obj c)).
Proof.
  eexists. split; [vm_compute; reflexivity|]. split; [reflexivity|].
  refine (proj1 (proj2 (outputs_follow_items (run emptyWorld partialRun) 0%nat _ _ _))).
  - by exists partialRun.
  - vm_compute; reflexivity.
Defined.

(** X2. In every reachable world a pending item has made no attempt, a
    completed item between one and three, and a failed item exactly three;
    so every entry of [errors] records three attempts. *)
Theorem attempts_by_state (w : World) (a : nat) (c : Cell) :
  reachable w → heap w !! a = Some c →
  (∀ it, it ∈ b_items (obj c) → attempts_ok it) ∧
  (∀ e, e ∈ b_errors (obj c) → e_attempts e = defaultMaxRetries).
Proof.
  intros Hw Ha. destruct (reachable_extra w a c Hw Ha) as [_ ((_ & Herr & Hidx & _) & _)].
  assert (∀ it, it ∈ b_items (obj c) → attempts_ok it) as Hat.
  { intros it Hit. apply list_elem_of_lookup in Hit as [j Hj]. apply (Hidx _ _ Hj). }
  split; [done|]. intros e He. rewrite Herr in He.
  apply list_elem_of_omap in He as (it & Hit & Hentry).
  unfold errorEntry in Hentry. case_decide as Hst; [|done]. simplify_eq/=.
  specialize (Hat it Hit). unfold attempts_ok in Hat. by rewrite Hst in Hat.
Qed.

Lemma attempts_by_state_witness :
  ∃ c, heap (run emptyWorld partialRun) !! 0%nat = Some c ∧
       ∀ e, e ∈ b_errors (obj c) → e_attempts e = 3%nat.
Proof.
  eexists. split; [vm_compute; reflexivity|].
  refine (proj2 (attempts_by_state (run emptyWorld partialRun) 0%nat _ _ _)).
  - by exists partialRun.
  - vm_compute; reflexivity.
Defined.




Lemma processItem_state cap now k b :
  b_state (processItem cap now k b).1.1 = b_state b.
Proof.
  unfold processItem.
  assert (b_state (processItem_begin now k b).1 = b_state b) as Hb
    by (unfold processItem_begin; by destruct (b_items b !! k)).
  destruct (processItem_begin now k b) as [b1 evs1].
  destruct (processItem_loop_shape cap now k VNull b1) as [Hst _].
  destruct (processItem_loop cap now k VNull b1) as [[b2 t] evs2]. simpl in *. congruence.
Qed.

Lemma processItem_settled_state cap now k o b :
  b_state (processItem_settled cap now k o b).1.1 = b_state b.
Proof.
  unfold processItem_settled. destruct o as [v|e].
  - pose proof (processItem_success_state now k v b).
    by destruct (processItem_success now k v b).
  - destruct (getProp e "message"); [|done].
    destruct (b_items b !! k) as [it|]; [|done].
    destruct (i_attempts it <? cap)%nat; [done|]. apply processItem_loop_shape.
Qed.

Lemma processBatch_loop_state now k b :
  counts_ok b → b_state b = PROCESSING ∨ b_state b = CANCELLED →
  b_state (processBatch_loop now k b).1.1 = b_state b ∨
  (b_state b = PROCESSING ∧
   (b_state (processBatch_loop now k b).1.1 = COMPLETED ∨
    b_state (processBatch_loop now k b).1.1 = FAILED ∨
    b_state (processBatch_loop now k b).1.1 = PARTIAL)).
Proof.
  intros Hc Hst. unfold processBatch_loop.
  destruct (finalizeBatch_ok now b Hc) as (_ & _ & _ & Hkeep & Hfin).
  assert (b_state (finalizeBatch now b).1 = b_state b ∨
          b_state b = PROCESSING ∧
          (b_state (finalizeBatch now b).1 = COMPLETED ∨
           b_state (finalizeBatch now b).1 = FAILED ∨
           b_state (finalizeBatch now b).1 = PARTIAL)) as Hf.
  { destruct Hst as [Hp|Hcan]; [right|left; by rewrite Hkeep].
    split; [done|]. destruct Hfin as [[? _]|[[? _]|[? _]]]; [congruence|auto..]. }
  destruct (b_items b !! k); [case_decide|]; try (by destruct (finalizeBatch now b)).
  left. apply processItem_state.
Qed.

Lemma processBatch_start_state now b :
  counts_ok b →
  b_state (cellOf (processBatch_start now b)).(obj)
  = match b_items b with [] => COMPLETED | _ => PROCESSING end.
Proof.
  intros Hc. unfold processBatch_start, processBatch_loop. simpl.
  destruct (b_items b) as [|it l] eqn:Hi; simpl.
  - destruct Hc as (_ & _ & _ & _ & Hfa & _). rewrite Hi in Hfa. simpl in Hfa.
    unfold finalizeBatch. simpl. by rewrite Hfa.
  - set (b1 := batch_with_updatedAt _ _).
    pose proof (processItem_state defaultMaxRetries now 0 b1) as Hps.
    by destruct (processItem defaultMaxRetries now 0 b1) as [[b2 t] evs].
Qed.

(** The state of a batch moves along an edge, or not at all. *)
Lemma cell_step_state c c' :
  cell_inv c → cell_step c c' →
  b_state (obj c') = b_state (obj c) ∨ state_edge (b_state (obj c)) (b_state (obj c')).
Proof.
  intros Hinv Hstep. destruct Hinv as (Hc & d & r & Hl & Ht).
  destruct Hstep as [now c Hp|now c Hg|now o c|now c|now c].
  - right. rewrite Hp, (processBatch_start_state now (obj c) Hc).
    destruct (b_items (obj c)); constructor.
  - simpl. destruct (b_state (obj c)) eqn:E; try tauto; right; constructor.
  - left. unfold resume_settle. destruct (task c); try done.
    apply processItem_settled_state.
  - left. unfold resume_wake. destruct (task c); try done.
    apply processItem_loop_shape.
  - unfold resume_next. destruct (task c) as [|k|k e ms|k| |] eqn:E; try (by left).
    destruct Ht as (_ & _ & _ & [Hst _]).
    destruct (processBatch_loop_state now (S k) (obj c) Hc Hst)
      as [Hs|[Hp [Hs|[Hs|Hs]]]]; [by left|right; simpl; rewrite Hp, Hs; constructor..].
Qed.

Ltac edge_case acts act :=
  exists (run emptyWorld acts), 0%nat; eexists; exists act; eexists;
  split; [by exists acts|];
  split; [vm_compute; reflexivity|];
  split; [reflexivity|];
  split; [vm_compute; reflexivity|reflexivity].

(** X4. The state machine of a job, as the code has it. In a reachable
    world a step of the service leaves the state of a batch as it is or
    moves it along one of: pending to processing, pending to completed (a
    batch without items), processing to completed, failed or partial, and
    pending, processing or partial to cancelled. Each of these transitions
    occurs. *)
Theorem state_machine :
  (∀ w a c act, reachable w → heap w !! a = Some c →
     ∃ c', heap (step w act) !! a = Some c' ∧
           (b_state (obj c') = b_state (obj c) ∨
            state_edge (b_state (obj c)) (b_state (obj c')))) ∧
  (∀ s s', state_edge s s' →
     ∃ w a c act c', reachable w ∧ heap w !! a = Some c ∧ b_state (obj c) = s ∧
                     heap (step w act) !! a = Some c' ∧ b_state (obj c') = s').
Proof.
  split.
  - intros w a c act Hw Ha.
    destruct (step_cells w act a c Ha) as (c' & Ha' & [->|Hstep]); [eauto|].
    exists c'. split; [done|]. eapply cell_step_state; [|done]. by eapply reachable_inv.
  -     intros s s' [].
    + edge_case justCreated (CallProcess "batch_5_k3x9qa" 6%N).
    + edge_case [CallCreate [] "process" (VObj []) 5%N "k3x9qa"]
                (CallProcess "batch_5_k3x9qa" 6%N).
    + edge_case (take 3 nullResultRun) (Next 0 8%N).
    + edge_case failedRun (Next 0 6012%N).
    + edge_case (take 9 partialRun) (Next 0 6012%N).
    + edge_case justCreated (CallCancel "batch_5_k3x9qa" 6%N).
    + edge_case secondInFlight (CallCancel "batch_5_k3x9qa" 9%N).
    + edge_case partialRun (CallCancel "batch_5_k3x9qa" 7000%N).
Qed.

Lemma state_machine_witness :
  ∃ c', heap (step (run emptyWorld justCreated) (CallProcess "batch_5_k3x9qa" 6%N))
          !! 0%nat = Some c' ∧
        (b_state (obj c') = PENDING ∨ state_edge PENDING (b_state (obj c'))).
Proof.
  refine (proj1 state_machine (run emptyWorld justCreated) 0%nat
            (mkCell (mkBatch "batch_5_k3x9qa" PENDING "process" 5%N 5%N None None
                       [mkItem 0 (VStr "A") VNull PENDING VNull VNull 0 None None;
                        mkItem 1 (VStr "B") VNull PENDING VNull VNull 0 None None]
                       (mkProgress 2 0 0 2 0 0) (VObj []) [] []) Idle)
            (CallProcess "batch_5_k3x9qa" 6%N) _ _).
  - by exists justCreated.
  - vm_compute; reflexivity.
Defined.

Lemma not_pending_step c c' :
  cell_inv c ∧ b_state (obj c) ≠ PENDING → cell_step c c' →
  cell_inv c' ∧ b_state (obj c') ≠ PENDING.
Proof.
  intros [Hinv Hnp] Hstep. split; [by eapply cell_step_inv|].
  destruct (cell_step_state c c' Hinv Hstep) as [->|Hedge]; [done|].
  by destruct Hedge.
Qed.

Lemma reachable_step w act : reachable w → reachable (step w act).
Proof.
  intros [acts ->]. exists (acts ++ [act]). unfold run. by rewrite foldl_app.
Qed.

(** X5. A batch is started at most once. When a call of [processBatch]
    passes its guards, every later call for the same batch is rejected as
    not pending and changes nothing, whatever happened in between. A call
    for an id the store does not hold is rejected as not found. *)
Theorem processBatch_once (w : World) (batchId : string) (now : Time) (w1 : World) :
  reachable w → processBatch batchId now w = (None, w1) →
  ∃ a, batchJobs w !! batchId = Some a ∧
    ∀ acts batchId' now',
      (batchJobs (run w1 acts) !! batchId' = Some a →
       processBatch batchId' now' (run w1 acts)
       = (Some (BatchNotPending batchId'), run w1 acts)) ∧
      (batchJobs (run w1 acts) !! batchId' = None →
       processBatch batchId' now' (run w1 acts)
       = (Some (BatchNotFound batchId'), run w1 acts)).
Proof.
  intros Hw Hp.
  assert (w1 = step w (CallProcess batchId now)) as -> by (simpl; by rewrite Hp).
  unfold processBatch in Hp.
  destruct (lookupBatch batchId w) as [[a c]|] eqn:Hl; [|done].
  apply lookupBatch_Some in Hl as [Hid Ha].
  case_decide as Hst; [|done]. exists a. split; [done|].
  assert (∃ c1, heap (step w (CallProcess batchId now)) !! a = Some c1 ∧
                cell_inv c1 ∧ b_state (obj c1) ≠ PENDING) as (c1 & Ha1 & Hc1).
  { simpl. unfold processBatch.
    rewrite (proj2 (lookupBatch_Some batchId w a c)), decide_True by done.
    pose proof (reachable_inv w Hw a c Ha) as Hinv.
    pose proof (cell_step_inv _ _ Hinv (cs_start now c Hst)) as Hinv1.
    pose proof (processBatch_start_state now (obj c) (proj1 Hinv)) as Hs.
    unfold cellOf in *.
    destruct (processBatch_start now (obj c)) as [[b' t'] evs]. cbn [snd].
    erewrite setCell_lookup by done. rewrite decide_True by done.
    eexists. split; [done|]. split; [done|]. simpl in *. rewrite Hs.
    by destruct (b_items (obj c)). }
  intros acts batchId' now'.
  destruct (run_cells _ not_pending_step acts _ a c1 Ha1 Hc1) as (c2 & Ha2 & _ & Hnp).
  unfold processBatch. split; intros Hid'.
  - rewrite (proj2 (lookupBatch_Some batchId' _ a c2)) by done. by rewrite decide_False.
  - unfold lookupBatch. by rewrite Hid'.
Qed.

Lemma processBatch_once_witness :
  ∃ w1, processBatch "batch_5_k3x9qa" 6%N (run emptyWorld justCreated) = (None, w1) ∧
        processBatch "batch_5_k3x9qa" 7%N w1 = (Some (BatchNotPending "batch_5_k3x9qa"), w1).
Proof.
  eexists. split; [vm_compute; reflexivity|].
  edestruct (processBatch_once (run emptyWorld justCreated) "batch_5_k3x9qa" 6%N)
    as (a & Ha & Hlater).
  - by exists justCreated.
  - vm_compute; reflexivity.
  - apply (Hlater [] "batch_5_k3x9qa" 7%N).
    vm_compute in Ha. vm_compute. exact Ha.
Defined.

(** X6. [deleteBatch] refuses a batch in state processing and changes
    nothing; any other stored batch it removes from the store, so that
    [getBatch] and [getBatchProgress] no longer find it, while the other
    ids and the batch objects are left as they are. An id the store does
    not hold gives [false]. *)
Theorem deleteBatch_effect (w : World) (batchId : string) :
  (getBatch batchId w = None → deleteBatch batchId w = (false, w)) ∧
  (∀ batch, getBatch batchId w = Some batch → b_state batch = PROCESSING →
     deleteBatch batchId w = (false, w)) ∧
  (∀ batch, getBatch batchId w = Some batch → b_state batch ≠ PROCESSING →
     (deleteBatch batchId w).1 = true ∧
     getBatch batchId (deleteBatch batchId w).2 = None ∧
     (∀ now, getBatchProgress batchId now (deleteBatch batchId w).2 = None) ∧
     (∀ other, other ≠ batchId →
        getBatch other (deleteBatch batchId w).2 = getBatch other w) ∧
     heap (deleteBatch batchId w).2 = heap w).
Proof.
  unfold getBatch, deleteBatch.
  destruct (lookupBatch batchId w) as [[a c]|] eqn:Hl; simpl.
  - split; [done|]. split.
    + intros batch [= <-] Hst. by rewrite decide_True.
    + intros batch [= <-] Hst. rewrite decide_False by done. simpl.
      assert (∀ id, lookupBatch id (mkWorld (heap w) (delete batchId (batchJobs w))
                                            (emitted w))
                    = if decide (id = batchId) then None else lookupBatch id w) as Hlk.
      { intros id. unfold lookupBatch; simpl. case_decide as Heq.
        - subst. by rewrite lookup_delete_eq.
        - by rewrite lookup_delete_ne. }
      split_and!; try done.
      * by rewrite Hlk, decide_True.
      * intros now. unfold getBatchProgress, getBatch. by rewrite Hlk, decide_True.
      * intros other Hne. by rewrite Hlk, decide_False.
  - split; [done|]. split; by intros batch [=].
Qed.

Lemma deleteBatch_effect_witness :
  getBatch "batch_5_k3x9qa"
           (deleteBatch "batch_5_k3x9qa" (run emptyWorld partialRun)).2 = None.
Proof.
  refine (proj1 (proj2 (proj2 (proj2 (deleteBatch_effect (run emptyWorld partialRun)
                                         "batch_5_k3x9qa")) _ _ _))).
  - vm_compute; reflexivity.
  - discriminate.
Defined.

Lemma getBatch_Some batchId w batch :
  getBatch batchId w = Some batch ↔
  ∃ a c, batchJobs w !! batchId = Some a ∧ heap w !! a = Some c ∧ obj c = batch.
Proof.
  unfold getBatch. destruct (lookupBatch batchId w) as [[a c]|] eqn:Hl; simpl.
  - apply lookupBatch_Some in Hl as [Hid Ha]. split.
    + intros [= <-]. eauto.
    + intros (a' & c' & Hid' & Ha' & <-). by simplify_eq.
  - split; [done|]. intros (a & c & Hid & Ha & _).
    by rewrite (proj2 (lookupBatch_Some batchId w a c)) in Hl.
Qed.

(** X7. The report of [getBatchProgress] for a stored batch of a
    reachable world carries the state and the counters of the batch; its
    [duration] is [null] exactly when no call of [processBatch] has taken
    the batch; and once that call has returned, the report no longer
    depends on the time at which it is asked for. *)
Theorem progress_report (w : World) (batchId : string) (a : nat) (c : Cell) (now : Time) :
  reachable w → batchJobs w !! batchId = Some a → heap w !! a = Some c →
  ∃ r, getBatchProgress batchId now w = Some r ∧
       pr_state r = b_state (obj c) ∧ pr_progress r = b_progress (obj c) ∧
       (pr_duration r = None ↔ task c = Idle) ∧
       (task c = Returned → ∀ now', getBatchProgress batchId now' w = Some r).
Proof.
  intros Hw Hid Ha. destruct (reachable_extra w a c Hw Ha) as [Hinv (_ & _ & Hstart)].
  assert (getBatch batchId w = Some (obj c)) as Hget by (apply getBatch_Some; eauto).
  unfold getBatchProgress. rewrite Hget. simpl. eexists. split; [done|]. simpl.
  split_and!; [done..| |].
  - rewrite <- Hstart. by destruct (b_startedAt (obj c)).
  - intros Hret now'. destruct Hinv as (_ & d & r & _ & Ht). rewrite Hret in Ht.
    destruct Ht as (_ & [t Hdone] & _). rewrite Hdone.
    by destruct (b_startedAt (obj c)).
Qed.

Lemma progress_report_witness :
  ∃ r, getBatchProgress "batch_5_k3x9qa" 9000%N (run emptyWorld partialRun) = Some r ∧
       pr_state r = PARTIAL.
Proof.
  assert (∃ c, heap (run emptyWorld partialRun) !! 0%nat = Some c ∧
               b_state (obj c) = PARTIAL) as (c & Hc & Hst)
    by (eexists; split; vm_compute; reflexivity).
  destruct (progress_report (run emptyWorld partialRun) "batch_5_k3x9qa" 0%nat c 9000%N)
    as (r & Hr & Hs & _).
  - by exists partialRun.
  - vm_compute; reflexivity.
  - exact Hc.
  - exists r. split; [exact Hr|]. by rewrite Hs.
Defined.

(** X8. [calculateDuration] prints the elapsed time truncated, never
    rounded up: whole seconds under a minute, minutes and seconds (below
    60) under an hour, hours and minutes (below 60) from then on, the
    seconds being dropped; without an end it measures up to now. *)
Theorem duration_truncated (startIso endIso now : Time) :
  (startIso ≤ endIso)%N →
  let secs := (Z.of_N endIso - Z.of_N startIso) / 1000 in
  calculateDuration startIso (Some endIso) now =
    (if secs <? 60 then pretty secs +:+ "s"
     else if secs <? 3600
          then pretty (secs / 60) +:+ "m " +:+ pretty (secs mod 60) +:+ "s"
          else pretty (secs / 3600) +:+ "h " +:+ pretty ((secs / 60) mod 60) +:+ "m") ∧
  calculateDuration startIso None now = calculateDuration startIso (Some now) now.
Proof.
  intros Hle secs. split; [|done]. unfold calculateDuration. simpl default. fold secs.
  assert (0 ≤ secs) by (apply Z.div_pos; lia).
  assert (0 ≤ secs / 60) by (apply Z.div_pos; lia).
  rewrite Z.div_div by lia. change (60 * 60) with 3600.
  rewrite !Z.rem_mod_nonneg by lia.
  destruct (Z.ltb_spec secs 60) as [H60|H60].
  - rewrite (Z.div_small secs 3600), (Z.div_small secs 60) by lia. done.
  - destruct (Z.ltb_spec secs 3600) as [Hh|Hh].
    + rewrite (Z.div_small secs 3600) by lia. simpl.
      assert (0 < secs / 60) by (apply Z.div_str_pos; lia).
      by rewrite (proj2 (Z.ltb_lt 0 (secs / 60))).
    + assert (0 < secs / 3600) by (apply Z.div_str_pos; lia).
      by rewrite (proj2 (Z.ltb_lt 0 (secs / 3600))).
Qed.

Lemma duration_truncated_witness :
  calculateDuration 1000%N (Some 3725999%N) 0%N = "1h 2m".
Proof.
  refine (proj1 (duration_truncated 1000%N 3725999%N 0%N _)). by vm_compute.
Defined.

(** ** The routes that manage a batch *)

Lemma getBatch_setCell batchId a c c' evs w :
  batchJobs w !! batchId = Some a → heap w !! a = Some c →
  getBatch batchId (setCell a c' evs w) = Some (obj c').
Proof.
  intros Hid Ha. apply getBatch_Some. exists a, c'. split; [done|]. split; [|done].
  erewrite setCell_lookup by done. by rewrite decide_True.
Qed.

(** X9. [DELETE /batch/:batchId] never answers that the batch cannot be
    deleted. It answers not found for an unknown id and changes nothing; a
    pending or processing batch it cancels and keeps in the store; any
    other batch it removes from the store. *)
Theorem deleteRoute_outcome (w : World) (batchId : string) (now : Time) :
  match (deleteRoute batchId now w).1 with
  | NotFound => getBatch batchId w = None ∧ (deleteRoute batchId now w).2 = w
  | CancelledOk =>
      ∃ batch, getBatch batchId w = Some batch ∧
               (b_state batch = PROCESSING ∨ b_state batch = PENDING) ∧
               b_state <$> getBatch batchId (deleteRoute batchId now w).2 = Some CANCELLED
  | DeletedOk =>
      ∃ batch, getBatch batchId w = Some batch ∧
               ¬ (b_state batch = PROCESSING ∨ b_state batch = PENDING) ∧
               getBatch batchId (deleteRoute batchId now w).2 = None
  | CannotDelete | CannotCancel => False
  end.
Proof.
  unfold deleteRoute. destruct (getBatch batchId w) as [batch|] eqn:Hget; [|done].
  pose proof Hget as Hg. apply getBatch_Some in Hg as (a & c & Hid & Ha & <-).
  assert (lookupBatch batchId w = Some (a, c)) as Hl by (by apply lookupBatch_Some).
  case_decide as Hst.
  - unfold cancelBatch. rewrite Hl.
    rewrite decide_False by (intros [?|?]; destruct Hst; congruence).
    cbn [fst snd]. exists (obj c). split; [done|]. split; [done|].
    by erewrite getBatch_setCell.
  - unfold deleteBatch. rewrite Hl. rewrite decide_False by tauto.
    cbn [fst snd]. exists (obj c). split; [done|]. split; [done|].
    unfold getBatch, lookupBatch. cbn [batchJobs]. by rewrite lookup_delete_eq.
Qed.

(** X10. [cancelBatch], and with it [POST /batch/:batchId/cancel], refuses
    exactly the unknown ids and the batches in state completed or failed,
    and then changes nothing. Every other batch, a partial or an already
    cancelled one included, it puts in state cancelled, touching none of
    its items, and it publishes one more [cancelled] event. *)
Theorem cancelRoute_outcome (w : World) (batchId : string) (now : Time) :
  ((cancelRoute batchId now w).1 = CannotCancel ↔
   (getBatch batchId w = None ∨
    ∃ batch, getBatch batchId w = Some batch ∧
             (b_state batch = COMPLETED ∨ b_state batch = FAILED))) ∧
  ((cancelRoute batchId now w).1 = CannotCancel → (cancelRoute batchId now w).2 = w) ∧
  ((cancelRoute batchId now w).1 ≠ CannotCancel →
   (cancelRoute batchId now w).1 = CancelledOk ∧
   emitted (cancelRoute batchId now w).2 = emitted w ++ [EvCancelled batchId] ∧
   ∃ batch batch', getBatch batchId w = Some batch ∧
     getBatch batchId (cancelRoute batchId now w).2 = Some batch' ∧
     b_state batch' = CANCELLED ∧ b_items batch' = b_items batch ∧
     b_progress batch' = b_progress batch).
Proof.
  unfold cancelRoute, cancelBatch.
  destruct (getBatch batchId w) as [batch|] eqn:Hget.
  - pose proof Hget as Hg. apply getBatch_Some in Hg as (a & c & Hid & Ha & <-).
    rewrite (proj2 (lookupBatch_Some batchId w a c)) by done.
    case_decide as Hst; cbn [fst snd].
    + split_and!; [split; [eauto|done]|done|done].
    + split_and!; [|done|].
      * split; [done|]. intros [?|(b & [= <-] & ?)]; [done|tauto].
      * intros _. split; [done|]. split; [done|].
        eexists _, _. split; [done|]. split; [by erewrite getBatch_setCell|done].
  - assert (lookupBatch batchId w = None) as ->.
    { unfold getBatch in Hget. by destruct (lookupBatch batchId w). }
    cbn [fst snd]. split_and!; [split; [by left|done]|done|done].
Qed.

Lemma cancelRoute_outcome_witness :
  (cancelRoute "batch_9_zzzzzz" 7%N (run emptyWorld partialRun)).2
  = run emptyWorld partialRun.
Proof.
  refine (proj1 (proj2 (cancelRoute_outcome (run emptyWorld partialRun)
                          "batch_9_zzzzzz" 7%N)) _).
  vm_compute; reflexivity.
Defined.

(** ** Listing the batches *)

Lemma insertNewest_perm b l : insertNewest b l ≡ₚ b :: l.
Proof.
  induction l as [|x l IH]; simpl; [done|].
  destruct (b_createdAt x <=? b_createdAt b)%N; [done|].
  rewrite IH. apply Permutation_swap.
Qed.

Lemma sortNewestFirst_perm l : sortNewestFirst l ≡ₚ l.
Proof.
  induction l as [|x l IH]; simpl; [done|]. by rewrite insertNewest_perm, IH.
Qed.

Lemma insertNewest_sorted b l :
  StronglySorted notOlder l → StronglySorted notOlder (insertNewest b l).
Proof.
  induction 1 as [|x l Hs IH Hall]; simpl; [by repeat constructor|].
  destruct (N.leb_spec (b_createdAt x) (b_createdAt b)) as [Hle|Hlt].
  - constructor; [by constructor|]. constructor; [done|].
    eapply Forall_impl; [done|]. unfold notOlder. intros y Hy. lia.
  - constructor; [done|]. rewrite insertNewest_perm. constructor; [|done].
    unfold notOlder. lia.
Qed.

Lemma sortNewestFirst_sorted l : StronglySorted notOlder (sortNewestFirst l).
Proof.
  induction l as [|x l IH]; simpl; [constructor|]. by apply insertNewest_sorted.
Qed.

Lemma insertNewest_stable t b l :
  StronglySorted notOlder l →
  filter (λ x, b_createdAt x = t) (insertNewest b l)
  = filter (λ x, b_createdAt x = t) (b :: l).
Proof.
  induction 1 as [|x l Hs IH Hall]; simpl; [done|].
  destruct (N.leb_spec (b_createdAt x) (b_createdAt b)) as [Hle|Hlt]; [done|].
  rewrite (filter_cons _ x), IH, !filter_cons.
  repeat case_decide; try done; lia.
Qed.

Lemma sortNewestFirst_stable t l :
  filter (λ x, b_createdAt x = t) (sortNewestFirst l)
  = filter (λ x, b_createdAt x = t) l.
Proof.
  induction l as [|x l IH]; simpl; [done|].
  rewrite insertNewest_stable by apply sortNewestFirst_sorted.
  rewrite !filter_cons. by rewrite IH.
Qed.

(** X11. [listBatches] returns the summaries of the newest batches that
    pass the filter: as many as the limit allows, from the newest to the
    oldest. Every batch left out is no newer than every batch listed, and
    batches created at the same instant keep the order in which they were
    stored. A state given as filter (the empty string counts as none)
    keeps exactly the batches in that state. *)
Theorem listBatches_newest (values : list Batch) (limit : nat) (state : option string) :
  ∃ kept rest,
    listBatches values limit state = summary <$> kept ∧
    length kept = (limit `min` length (filterByState state values))%nat ∧
    kept ++ rest ≡ₚ filterByState state values ∧
    StronglySorted notOlder (kept ++ rest) ∧
    (∀ t, filter (λ x, b_createdAt x = t) (kept ++ rest)
          = filter (λ x, b_createdAt x = t) (filterByState state values)) ∧
    (∀ s b, state = Some s → s ≠ "" →
       (b ∈ filterByState state values ↔ b ∈ values ∧ stateName (b_state b) = s)).
Proof.
  exists (take limit (sortNewestFirst (filterByState state values))),
         (drop limit (sortNewestFirst (filterByState state values))).
  rewrite take_drop. split_and!.
  - done.
  - by rewrite length_take, (Permutation_length (sortNewestFirst_perm _)).
  - apply sortNewestFirst_perm.
  - apply sortNewestFirst_sorted.
  - intros t. apply sortNewestFirst_stable.
  - intros s b -> Hne. unfold filterByState.
    rewrite (proj2 (String.eqb_neq s "")) by done.
    rewrite list_elem_of_filter. tauto.
Qed.

Lemma listBatches_newest_witness :
  ∃ kept rest,
    listBatches (obj <$> heap (run emptyWorld partialRun)) 10 (Some "partial")
    = summary <$> kept ∧
    kept ++ rest ≡ₚ filterByState (Some "partial") (obj <$> heap (run emptyWorld partialRun)).
Proof.
  destruct (listBatches_newest (obj <$> heap (run emptyWorld partialRun)) 10
                               (Some "partial")) as (kept & rest & H1 & _ & H3 & _).
  exists kept, rest. split; [exact H1|exact H3].
Defined.
